(** * sf-filecache: the bucket header codec and the cache operations

    A shallow embedding of the two implementations of the file cache found
    in the repository: the callback one ([Legacy], src/index.js with
    [FileCache.prototype.*]) and the promise one ([Service], the
    [initFileCache] service with an injected lock), together with models of
    the collaborators they call (Node's [fs], [Buffer], [yerror],
    [first-chunk-stream], the lock service and the clock).

    One operation is run at a time, and the asynchronous calls it makes are
    completed in the order in which it makes them: what is modelled is each
    operation on its own, not the interleaving of several. *)

From Stdlib Require Import ZArith Lia List String Ascii.
From Stdlib Require Import Strings.Byte Floats.SpecFloat.
From stdpp Require Import base gmap strings list.

Local Open Scope Z_scope.

(** ** JavaScript numbers

    A JS number is an IEEE-754 binary64 value.  [spec_float] is the Standard
    Library's specification of such values (no NaN payload, which JS does
    not expose either). *)

Module Number.

Definition prec : Z := 53.
Definition emax : Z := 1024.

Definition number := spec_float.

(** The values of [spec_float] that are binary64 numbers. *)
Definition is_double (x : number) : bool := valid_binary prec emax x.

Definition zero : number := S754_zero false.

(** [x < y], [x === y] and [x + y] of JS. *)
Definition lt (x y : number) : bool := SFltb x y.
Definition eqb (x y : number) : bool := SFeqb x y.
Definition add (x y : number) : number := SFadd prec emax x y.

(** An integer literal, or an integer-valued property such as
    [data.length]. *)
Definition of_Z (z : Z) : number := binary_normalize prec emax z 0 false.

(** ToBoolean on a number: [0], [-0] and [NaN] are falsy. *)
Definition truthy (x : number) : bool :=
  match x with
  | S754_zero _ | S754_nan => false
  | _ => true
  end.

Definition is_nan (x : number) : bool :=
  match x with S754_nan => true | _ => false end.

Definition is_finite (x : number) : bool :=
  match x with
  | S754_zero _ | S754_finite _ _ _ => true
  | _ => false
  end.

Definition sign_bit (s : bool) : Z := if s then 2 ^ 63 else 0.

(** The 64-bit pattern of a number: sign, 11 bits of biased exponent,
    52 bits of fraction. *)
Definition bits_of (x : number) : Z :=
  match x with
  | S754_zero s => sign_bit s
  | S754_infinity s => sign_bit s + 2047 * 2 ^ 52
  | S754_nan => 2047 * 2 ^ 52 + 2 ^ 51
  | S754_finite s m e =>
      if 2 ^ 52 <=? Z.pos m
      then sign_bit s + (e + 1075) * 2 ^ 52 + (Z.pos m - 2 ^ 52)
      else sign_bit s + Z.pos m
  end.

Definition of_bits (b : Z) : number :=
  let s := 2 ^ 63 <=? b mod 2 ^ 64 in
  let E := (b / 2 ^ 52) mod 2048 in
  let M := b mod 2 ^ 52 in
  if E =? 0 then
    if M =? 0 then S754_zero s else S754_finite s (Z.to_pos M) (-1074)
  else if E =? 2047 then
    if M =? 0 then S754_infinity s else S754_nan
  else S754_finite s (Z.to_pos (M + 2 ^ 52)) (E - 1075).

(** [0xFFFFFFFFFFFFFFFF]: the literal rounds to [2^64]. *)
Definition max_sentinel : number := of_Z 18446744073709551615.

End Number.

Abbreviation number := Number.number.

(** A length or a count of bytes, as a number. *)
Definition num_of_nat (n : nat) : number := Number.of_Z (Z.of_nat n).

(** ** Buffers *)

Abbreviation bytes := (list byte).

Definition byte_of_Z (z : Z) : byte :=
  match Byte.of_N (Z.to_N (z mod 256)) with
  | Some b => b
  | None => x00
  end.

Definition Z_of_byte (b : byte) : Z := Z.of_N (Byte.to_N b).

(** [n] bytes of [z], least significant first. *)
Fixpoint le_bytes (n : nat) (z : Z) : bytes :=
  match n with
  | O => []
  | S k => byte_of_Z z :: le_bytes k (z / 256)
  end.

Fixpoint le_value (l : bytes) : Z :=
  match l with
  | [] => 0
  | b :: r => Z_of_byte b + 256 * le_value r
  end.

Module Buffer.

(** [Buffer.from(str.split('').map(c => c.charCodeAt(0)))] for an ASCII
    string. *)
Definition from_chars (s : string) : bytes := list_byte_of_string s.

(** [buf.writeDoubleLE(v, off, true)], the eight bytes in range. *)
Definition writeDoubleLE (buf : bytes) (v : number) (off : nat) : bytes :=
  firstn off buf ++ le_bytes 8 (Number.bits_of v) ++ skipn (off + 8) buf.

(** [buf.readDoubleLE(off, true)], the eight bytes in range. *)
Definition readDoubleLE (buf : bytes) (off : nat) : number :=
  Number.of_bits (le_value (firstn 8 (skipn off buf))).

(** [buf.slice(n)] *)
Definition slice (buf : bytes) (n : nat) : bytes := skipn n buf.

(** [Buffer.concat(list)] *)
Definition concat (l : list bytes) : bytes := List.concat l.

End Buffer.

(** ** Errors: the yerror package and the errors of [fs] *)

Inductive value :=
| VUndefined
| VNum (n : number)
| VStr (s : string)
| VBuf (b : bytes).

(** [YErr]: a YError built by [new]; [YWrap]: a YError that wraps another
    error; [SysErr]: an error of the platform ([ENOENT], [EEXIST], ...). *)
Inductive error :=
| YErr (code : string) (params : list value)
| YWrap (code : string) (params : list value) (inner : error)
| SysErr (code : string).

Module YError.

(** [new YError(code, ...params)] *)
Definition new (code : string) (params : list value) : error :=
  YErr code params.

(** [YError.wrap(err, code, ...params)]: a new YError that keeps [err]. *)
Definition wrap (err : error) (code : string) (params : list value) : error :=
  YWrap code params err.

(** [YError.cast(err, code, ...params)]: [err] itself when it is a YError,
    [wrap] otherwise. *)
Definition cast (err : error) (code : string) (params : list value) : error :=
  match err with
  | SysErr _ => wrap err code params
  | _ => err
  end.

Definition code_of (err : error) : string :=
  match err with
  | YErr c _ | YWrap c _ _ | SysErr c => c
  end.

End YError.

(** ** The bucket header *)

Definition HEADER_FLAG : string := "BUCK".
Definition HEADER_SIZE : nat := String.length HEADER_FLAG + 16.

(** The tag and the bytes that follow the double. *)
Definition magic : bytes := list_byte_of_string HEADER_FLAG.
Definition filler : bytes := repeat "x"%byte 8.

Record header := { eol : option number }.

(** [header.eol || 0], the value [header.eol] is given before it is
    written. *)
Definition eol_or_zero (e : option number) : number :=
  match e with
  | Some n => if Number.truthy n then n else Number.zero
  | None => Number.zero
  end.

(** The [eol] property of [header || {}]. *)
Definition eol_of (h : option header) : option number :=
  match h with
  | Some h => eol h
  | None => None
  end.

(** [header = header || {}], then [header.eol = header.eol || 0], then the
    eol is written over bytes 4 to 11 of the template. *)
Definition _encodeHeader (h : option header) : bytes :=
  let data := Buffer.from_chars "BUCKxxxxxxxxxxxxxxxx" in
  let h := match h with Some h => h | None => {| eol := None |} end in
  let eol_ := eol_or_zero (eol h) in
  Buffer.writeDoubleLE data eol_ (String.length HEADER_FLAG).

(** [HEADER_FLAG.split('').some((char, i) => data[i] !== char.charCodeAt(0))] *)
Fixpoint flag_differs (flag : list byte) (i : nat) (data : bytes) : bool :=
  match flag with
  | [] => false
  | c :: rest =>
      match nth_error data i with
      | Some b => if Byte.eqb b c then flag_differs rest (S i) data else true
      | None => true
      end
  end.

(** The two [throw] are the [inl]; data.length is at least [HEADER_SIZE]
    where the double is read. *)
Definition _decodeHeader (data : bytes) : error + header :=
  if (length data <? HEADER_SIZE)%nat then
    inl (YError.new "E_BAD_HEADER_SIZE" [VNum (num_of_nat (length data))])
  else if flag_differs (list_byte_of_string HEADER_FLAG) 0 data then
    inl (YError.new "E_BAD_HEADER_FMT" [VBuf data])
  else
    inr {| eol := Some (Buffer.readDoubleLE data (String.length HEADER_FLAG)) |}.

(** ** The file system

    A model of the part of Node's [fs] that the cache calls, over an
    in-memory disk.  [readonly] holds the paths that cannot be opened for
    writing, [wlimit] is the most bytes one [fs.write] call transfers (a
    short write when it is below the request), [hwm] the chunk size of a
    read stream and [race] the order in which the thread pool serves two
    requests that are in flight together.

    The failures that the model has are those of opening: a file that is
    not there ([ENOENT]), a path that cannot be written ([EACCES]), an
    exclusive creation of a file that is there ([EEXIST]), a descriptor that
    is not open ([EBADF]).  A file that is there can be read and renamed,
    and what is written through an open stream gets to its file. *)

(** Two [fs.close] of one descriptor, in flight together: the request
    issued last may reach the descriptor first (the other one then fails
    with [EBADF]), and may call back first. *)
Record schedule := { closes_last_first : bool; answers_last_first : bool }.

Definition in_order : schedule :=
  {| closes_last_first := false; answers_last_first := false |}.

Record disk := {
  files : gmap string bytes;
  readonly : gset string;
  fds : gmap nat string;
  next_fd : nat;
  wlimit : nat;
  hwm : positive;
  race : schedule
}.

(** The options object handed to [fs.writeFile] or [fs.createWriteStream]:
    the properties the cache or Node may name. *)
Record fs_options := { flag : option string; flags : option string }.

Definition with_files (f : gmap string bytes -> gmap string bytes) (d : disk) : disk :=
  {| files := f (files d); readonly := readonly d; fds := fds d;
     next_fd := next_fd d; wlimit := wlimit d; hwm := hwm d; race := race d |}.

Definition with_fds (f : gmap nat string -> gmap nat string) (n : nat) (d : disk) : disk :=
  {| files := files d; readonly := readonly d; fds := f (fds d);
     next_fd := n; wlimit := wlimit d; hwm := hwm d; race := race d |}.

(** A readable stream: the error it emits on opening, or its chunks. *)
Inductive readable :=
| RError (err : error)
| RChunks (chunks : list bytes).

Fixpoint chunks_fuel (fuel n : nat) (l : bytes) : list bytes :=
  match fuel with
  | O => []
  | S f =>
      match l with
      | [] => []
      | _ => firstn n l :: chunks_fuel f n (skipn n l)
      end
  end.

Definition chunks_of (n : nat) (l : bytes) : list bytes :=
  chunks_fuel (length l) n l.

Definition overwrite (pos : nat) (chunk content : bytes) : bytes :=
  firstn pos content ++ chunk ++ skipn (pos + length chunk) content.

Module NodeFs.

(** Opening [path] for writing with the open flags [fl]. *)
Definition open_for_write (path fl : string) (d : disk) : option error :=
  if decide (path ∈ readonly d) then Some (SysErr "EACCES")
  else if decide (fl = "wx" ∧ is_Some (files d !! path)) then Some (SysErr "EEXIST")
  else None.

Definition readFile (path : string) (d : disk) : error + bytes :=
  match files d !! path with
  | Some b => inr b
  | None => inl (SysErr "ENOENT")
  end.

(** [fs.writeFile(path, data, options, cb)]: the open flags are
    [options.flag], ['w'] when it is absent. *)
Definition writeFile (path : string) (data : bytes) (o : fs_options) (d : disk)
  : option error * disk :=
  match open_for_write path (default "w" (flag o)) d with
  | Some err => (Some err, d)
  | None => (None, with_files (insert path data) d)
  end.

Definition unlink (path : string) (d : disk) : option error * disk :=
  match files d !! path with
  | Some _ => (None, with_files (delete path) d)
  | None => (Some (SysErr "ENOENT"), d)
  end.

Definition rename (src dst : string) (d : disk) : option error * disk :=
  match files d !! src with
  | Some b => (None, with_files (fun m => <[dst := b]> (delete src m)) d)
  | None => (Some (SysErr "ENOENT"), d)
  end.

(** [fs.open(path, 'r+', cb)] *)
Definition open (path : string) (d : disk) : (error + nat) * disk :=
  match files d !! path with
  | None => (inl (SysErr "ENOENT"), d)
  | Some _ =>
      if decide (path ∈ readonly d) then (inl (SysErr "EACCES"), d)
      else (inr (next_fd d), with_fds (insert (next_fd d) path) (S (next_fd d)) d)
  end.

(** [fs.write(fd, buffer, offset, length, position, cb)] *)
Definition write (fd : nat) (buf : bytes) (off len pos : nat) (d : disk)
  : (error + nat) * disk :=
  match fds d !! fd with
  | None => (inl (SysErr "EBADF"), d)
  | Some path =>
      let chunk := firstn (Nat.min len (wlimit d)) (skipn off buf) in
      (inr (length chunk), with_files (alter (overwrite pos chunk) path) d)
  end.

Definition close (fd : nat) (d : disk) : option error * disk :=
  match fds d !! fd with
  | None => (Some (SysErr "EBADF"), d)
  | Some _ => (None, with_fds (delete fd) (next_fd d) d)
  end.

(** Two [fs.close(fd)] issued one after the other, before either has called
    back: the result of the first call and the result of the second.  The
    request that reaches the descriptor first closes it, the other one
    fails. *)
Definition close_twice (fd : nat) (d : disk) : (option error * option error) * disk :=
  match fds d !! fd with
  | None => ((Some (SysErr "EBADF"), Some (SysErr "EBADF")), d)
  | Some _ =>
      (if closes_last_first (race d) then (Some (SysErr "EBADF"), None)
       else (None, Some (SysErr "EBADF")),
       with_fds (delete fd) (next_fd d) d)
  end.

Definition createReadStream (path : string) (d : disk) : readable :=
  match files d !! path with
  | Some b => RChunks (chunks_of (Pos.to_nat (hwm d)) b)
  | None => RError (SysErr "ENOENT")
  end.

(** [fs.createWriteStream(path, options)]: the open flags are
    [options.flags], ['w'] when it is absent; the file is opened, and so
    created or emptied, as soon as the stream exists.  The result is the
    error the stream emits, if it cannot be opened.  The descriptor that the
    stream holds is its own business: it is not in [fds], which has the
    descriptors that the cache opens and closes itself. *)
Definition createWriteStream (path : string) (o : fs_options) (d : disk)
  : option error * disk :=
  match open_for_write path (default "w" (flags o)) d with
  | Some err => (Some err, d)
  | None => (None, with_files (insert path []) d)
  end.

(** One chunk written through an open write stream on [path]. *)
Definition stream_write (path : string) (chunk : bytes) (d : disk) : disk :=
  with_files (alter (fun c => c ++ chunk) path) d.

End NodeFs.

(** ** The world the cache runs in

    The disk, the number of clock readings taken so far, and the trace of
    what the cache did to its collaborators: lock and [fs] calls, log lines,
    and, for the callback implementation, the invocations of the caller's
    callback. *)

Inductive cb_data :=
| CbNull
| CbBuffer (data : bytes)
| CbStream (chunks : list bytes).

Inductive event :=
| LockTake (key : string)
| LockRelease (key : string)
| FsReadFile (path : string)
| FsWriteFile (path : string) (data : bytes) (o : fs_options)
| FsUnlink (path : string)
| FsRename (src dst : string)
| FsOpen (path mode : string)
| FsWrite (fd : nat) (buf : bytes) (off len pos : nat)
| FsClose (fd : nat)
| FsCreateReadStream (path : string)
| FsCreateWriteStream (path : string) (o : fs_options)
| StreamWrite (path : string) (chunk : bytes)
| Logged (level msg : string)
| LoggedError (level : string) (err : error)
| Callback (r : error + cb_data).

Record world := { w_disk : disk; ticks : nat; trace : list event }.

(** What is injected: the cache directory, the time to live, the clock (its
    successive readings) and the sanitize-filename function. *)
Record services := {
  FS_CACHE_DIR : string;
  FS_CACHE_TTL : number;
  time : nat -> number;
  sanitize : string -> string
}.

(** Computations that read and change the world and may throw. *)
Definition M (A : Type) : Type := world -> (error + A) * world.

Definition ret {A} (a : A) : M A := fun w => (inr a, w).

Definition throw {A} (e : error) : M A := fun w => (inl e, w).

Definition bind {A B} (m : M A) (k : A -> M B) : M B :=
  fun w =>
    match m w with
    | (inr a, w') => k a w'
    | (inl e, w') => (inl e, w')
    end.

Definition try_catch {A} (m : M A) (handler : error -> M A) : M A :=
  fun w =>
    match m w with
    | (inr a, w') => (inr a, w')
    | (inl e, w') => handler e w'
    end.

#[global] Instance M_ret : MRet M := @ret.
#[global] Instance M_bind : MBind M := fun A B k m => bind m k.

Definition emit (e : event) : M unit :=
  fun w => (inr tt, {| w_disk := w_disk w; ticks := ticks w; trace := trace w ++ [e] |}).

Definition on_disk {A} (f : disk -> A * disk) : M A :=
  fun w =>
    let '(a, d) := f (w_disk w) in
    (inr a, {| w_disk := d; ticks := ticks w; trace := trace w |}).

Definition path_join (dir name : string) : string := dir +:+ "/" +:+ name.

Definition lt_eol (e : option number) (now : number) : bool :=
  match e with
  | Some n => Number.lt n now
  | None => false
  end.

Definition value_of_eol (e : option number) : value :=
  match e with
  | Some n => VNum n
  | None => VUndefined
  end.

Definition wx : fs_options := {| flag := None; flags := Some "wx" |}.

(** [first-chunk-stream] with [chunkLength: n]: the chunks of the source are
    gathered until [n] bytes are there (or the source ends); the callback is
    given these bytes, and what it answers is pushed in their place, before
    the rest of the chunk that completed them and the later chunks. *)
Fixpoint fc_collect (n : nat) (acc : bytes) (cs : list bytes) : bytes * list bytes :=
  match cs with
  | [] => (acc, [])
  | c :: cs' =>
      if (length c <? n - length acc)%nat then fc_collect n (acc ++ c) cs'
      else (acc ++ firstn (n - length acc) c,
            match skipn (n - length acc) c with
            | [] => cs'
            | r => r :: cs'
            end)
  end.

Definition fc_push (replacement : bytes) (rest : list bytes) : list bytes :=
  match replacement with
  | [] => rest
  | _ => replacement :: rest
  end.

Section Primitives.

Context (sv : services).

(** [time()] *)
Definition now : M number :=
  fun w => (inr (time sv (ticks w)),
            {| w_disk := w_disk w; ticks := S (ticks w); trace := trace w |}).

Definition lock_take (key : string) : M unit := emit (LockTake key).
Definition lock_release (key : string) : M unit := emit (LockRelease key).

Definition fs_readFile (path : string) : M (error + bytes) :=
  emit (FsReadFile path);;
  on_disk (fun d => (NodeFs.readFile path d, d)).

Definition fs_writeFile (path : string) (data : bytes) (o : fs_options) : M (option error) :=
  emit (FsWriteFile path data o);;
  on_disk (NodeFs.writeFile path data o).

Definition fs_unlink (path : string) : M (option error) :=
  emit (FsUnlink path);; on_disk (NodeFs.unlink path).

Definition fs_rename (src dst : string) : M (option error) :=
  emit (FsRename src dst);; on_disk (NodeFs.rename src dst).

Definition fs_open (path mode : string) : M (error + nat) :=
  emit (FsOpen path mode);; on_disk (NodeFs.open path).

Definition fs_write (fd : nat) (buf : bytes) (off len pos : nat) : M (error + nat) :=
  emit (FsWrite fd buf off len pos);; on_disk (NodeFs.write fd buf off len pos).

Definition fs_close (fd : nat) : M (option error) :=
  emit (FsClose fd);; on_disk (NodeFs.close fd).

(** [fs.close(fd, cbA); fs.close(fd, cbB)]: both calls are issued, then the
    thread pool serves them. *)
Definition fs_close_twice (fd : nat) : M (option error * option error) :=
  emit (FsClose fd);; emit (FsClose fd);; on_disk (NodeFs.close_twice fd).

(** Whether, of two requests in flight together, the one issued last calls
    back first. *)
Definition last_answers_first : M bool :=
  on_disk (fun d => (answers_last_first (race d), d)).

Definition fs_createReadStream (path : string) : M readable :=
  emit (FsCreateReadStream path);;
  on_disk (fun d => (NodeFs.createReadStream path d, d)).

Definition fs_createWriteStream (path : string) (o : fs_options) : M (option error) :=
  emit (FsCreateWriteStream path o);; on_disk (NodeFs.createWriteStream path o).

(** [writableStream.write(chunk)] *)
Definition stream_write (path : string) (chunk : bytes) : M unit :=
  emit (StreamWrite path chunk);;
  on_disk (fun d => (tt, NodeFs.stream_write path chunk d)).

(** [stream.pipe(writableStream)] for a source that delivers [chunks] and
    ends.  A source stream is the list of its chunks: one that emits an
    error, or never ends, is not among them. *)
Fixpoint pipe (chunks : list bytes) (path : string) : M unit :=
  match chunks with
  | [] => ret tt
  | c :: rest => stream_write path c;; pipe rest path
  end.

Definition log_line (level msg : string) : M unit := emit (Logged level msg).
Definition log_error (level : string) (err : error) : M unit :=
  emit (LoggedError level err).

(** The caller's callback, in the callback implementation. *)
Definition cb (r : error + cb_data) : M unit := emit (Callback r).

Definition cb_status (r : option error) : M unit :=
  match r with
  | Some err => cb (inl err)
  | None => cb (inr CbNull)
  end.

End Primitives.

(** [eol || 0xFFFFFFFFFFFFFFFF] *)
Definition eol_or_max (e : option number) : number :=
  match e with
  | Some n => if Number.truthy n then n else Number.max_sentinel
  | None => Number.max_sentinel
  end.

(** ** The promise implementation: [initFileCache] *)

Module Service.
Section Service.

Context (sv : services).

Definition _keyToPath (key : string) : string :=
  path_join (FS_CACHE_DIR sv) ("__" +:+ sanitize sv key +:+ ".bucket").

(** The default of the parameter: [eol = time() + FS_CACHE_TTL]. *)
Definition default_eol (e : option number) : M number :=
  match e with
  | Some n => ret n
  | None => t ← now sv; ret (Number.add t (FS_CACHE_TTL sv))
  end.

Definition get (key : string) : M bytes :=
  r ← fs_readFile (_keyToPath key);
  match r with
  | inl err => throw (YError.cast err "E_NOENT" [VStr key])
  | inr data =>
      match _decodeHeader data with
      | inl err => throw err
      | inr bucketHeader =>
          t ← now sv;
          if lt_eol (eol bucketHeader) t
          then throw (YError.new "E_END_OF_LIFE" [value_of_eol (eol bucketHeader)])
          else ret (Buffer.slice data HEADER_SIZE)
      end
  end.

(** The stream handed to the caller is the list of the chunks it will emit.
    The callback of [firstChunkStream] is never given an [err] by the model
    of that package, so there is no [E_UNEXPECTED]. *)
Definition getStream (key : string) : M (list bytes) :=
  stream ← fs_createReadStream (_keyToPath key);
  match stream with
  | RError err => throw (YError.cast err "E_NOENT" [VStr key])
  | RChunks cs =>
      let '(chunk, rest) := fc_collect HEADER_SIZE [] cs in
      match _decodeHeader chunk with
      | inl err => throw err
      | inr bucketHeader =>
          t ← now sv;
          if lt_eol (eol bucketHeader) t
          then throw (YError.new "E_END_OF_LIFE" [value_of_eol (eol bucketHeader)])
          else ret (fc_push (Buffer.from_chars "") rest)
      end
  end.

(** [fs.writeFile] is called with well-typed arguments and does not throw:
    the inner [try] has nothing to catch. *)
Definition set (key : string) (data : bytes) (e : option number) : M unit :=
  e ← default_eol e;
  let header := _encodeHeader (Some {| eol := Some e |}) in
  let dest := _keyToPath key in
  t ← now sv;
  if Number.lt e t then throw (YError.new "E_END_OF_LIFE" [VNum e])
  else
    lock_take key;;
    try_catch
      (r ← fs_writeFile (dest +:+ ".tmp") (Buffer.concat [header; data]) wx;
       match r with
       | Some err => throw (YError.cast err "E_ACCESS" [VStr key])
       | None =>
           fs_unlink dest;;
           r ← fs_rename (dest +:+ ".tmp") dest;
           match r with
           | Some err => throw err
           | None => ret tt
           end
       end;;
       lock_release key)
      (fun err => lock_release key;; throw err).

(** [stream] is a source that emits the given chunks and ends.  What is
    written to a write stream that could not be opened is lost, and is not
    in the trace. *)
Definition setStream (key : string) (stream : list bytes) (e : option number) : M unit :=
  e ← default_eol e;
  let header := _encodeHeader (Some {| eol := Some e |}) in
  let dest := _keyToPath key in
  let e := eol_or_max (Some e) in
  t ← now sv;
  if Number.lt e t then throw (YError.new "E_END_OF_LIFE" [VNum e])
  else
    lock_take key;;
    try_catch
      (r ← fs_createWriteStream (dest +:+ ".tmp") wx;
       match r with
       | Some err => throw (YError.cast err "E_ACCESS" [VStr key])
       | None =>
           stream_write (dest +:+ ".tmp") header;;
           pipe stream (dest +:+ ".tmp");;
           r ← fs_rename (dest +:+ ".tmp") dest;
           match r with
           | Some err => throw err
           | None => ret tt
           end
       end;;
       lock_release key)
      (fun err => lock_release key;; throw (YError.cast err "E_ACCESS" [VStr key])).

(** A promise settled with [r], and what is still called back later. *)
Definition settles (r : error + unit) (late : M unit) : M ((error + unit) * M unit) :=
  ret (r, late).

(** The promise that [setEOL] awaits on its update path: how it settles
    (the first [resolve] or [reject] that is called), and what the file
    system still calls back once it has settled.

    On a short write the code calls [fs.close(fd, ...)] twice, the second
    call not being under an [else] and no [return] standing between them:
    the callback of the first call rejects with [E_BAD_WRITE] (and logs the
    error of its [fs.close], if any), the callback of the second call
    rejects with the error of its [fs.close] or resolves.  Whichever is
    called first settles the promise. *)
Definition rewrite_header (key : string) (e : number) : M ((error + unit) * M unit) :=
  r ← fs_open (_keyToPath key) "r+";
  match r with
  | inl err => settles (inl err) (ret tt)
  | inr fd =>
      let header := _encodeHeader (Some {| eol := Some e |}) in
      r2 ← fs_write fd header 0 HEADER_SIZE 0;
      match r2 with
      | inl err2 => fs_close fd;; settles (inl err2) (ret tt)
      | inr numBytesWritten =>
          if negb (numBytesWritten =? HEADER_SIZE)%nat then
            errs ← fs_close_twice fd;
            swapped ← last_answers_first;
            let bad_write :=
              YError.new "E_BAD_WRITE" [VNum (num_of_nat numBytesWritten)] in
            let logs : M unit :=
              match fst errs with
              | Some err3 =>
                  log_line "error" "Could not close the file descriptor.";;
                  log_error "stack" (YError.cast err3 key [])
              | None => ret tt
              end in
            if (swapped : bool) then
              settles (match snd errs with
                       | Some err => inl err
                       | None => inr tt
                       end) logs
            else
              logs;; settles (inl bad_write) (ret tt)
          else
            r3 ← fs_close fd;
            settles (match r3 with
                     | Some err => inl err
                     | None => inr tt
                     end) (ret tt)
      end
  end.

(** On the update path both the [try] block and the [catch] block call
    [lock.release(key)] as soon as the promise has settled, and then return
    or rethrow; a callback that the file system makes after that comes
    last. *)
Definition setEOL (key : string) (e : option number) : M unit :=
  e ← default_eol e;
  t ← now sv;
  if Number.lt e t then
    lock_take key;;
    try_catch
      (r ← fs_unlink (_keyToPath key);
       match r with
       | Some err => throw err
       | None => ret tt
       end)
      (fun err => lock_release key;; throw err)
  else
    settled ← rewrite_header key e;
    lock_release key;;
    snd settled;;
    match fst settled with
    | inl err => throw err
    | inr _ => ret tt
    end.

End Service.
End Service.

(** ** The callback implementation: [FileCache.prototype] *)

Module Legacy.
Section Legacy.

Context (sv : services).

(** [this._dir] is [FS_CACHE_DIR sv], [this._clock] is [time sv]. *)
Definition _keyToPath (key : string) : string :=
  path_join (FS_CACHE_DIR sv) ("__" +:+ sanitize sv key +:+ ".bucket").

Definition _createHeader (h : option header) : bytes :=
  let data := Buffer.from_chars "BUCKxxxxxxxxxxxxxxxx" in
  let h := match h with Some h => h | None => {| eol := None |} end in
  let eol_ := eol_or_zero (eol h) in
  Buffer.writeDoubleLE data eol_ (String.length HEADER_FLAG).

Definition _readHeader (data : bytes) : error + header :=
  if (length data <? HEADER_SIZE)%nat then
    inl (YError.new "E_BAD_HEADER_SIZE" [VNum (num_of_nat (length data))])
  else if flag_differs (list_byte_of_string HEADER_FLAG) 0 data then
    inl (YError.new "E_BAD_HEADER_FMT" [VBuf data])
  else
    inr {| eol := Some (Buffer.readDoubleLE data (String.length HEADER_FLAG)) |}.

Definition get (key : string) : M unit :=
  r ← fs_readFile (_keyToPath key);
  match r with
  | inl err => cb (inl (YError.wrap err "E_NOENT" [VStr key]))
  | inr data =>
      match _readHeader data with
      | inl err2 => cb (inl err2)
      | inr bucketHeader =>
          t ← now sv;
          if lt_eol (eol bucketHeader) t
          then cb (inl (YError.new "E_END_OF_LIFE" [value_of_eol (eol bucketHeader)]))
          else cb (inr (CbBuffer (Buffer.slice data HEADER_SIZE)))
      end
  end.

Definition getStream (key : string) : M unit :=
  stream ← fs_createReadStream (_keyToPath key);
  match stream with
  | RError err => cb (inl (YError.wrap err "E_NOENT" [VStr key]))
  | RChunks cs =>
      let '(chunk, rest) := fc_collect HEADER_SIZE [] cs in
      match _readHeader chunk with
      | inl err2 => cb (inl err2)
      | inr bucketHeader =>
          t ← now sv;
          if lt_eol (eol bucketHeader) t
          then cb (inl (YError.new "E_END_OF_LIFE" [value_of_eol (eol bucketHeader)]))
          else cb (inr (CbStream (fc_push (Buffer.from_chars "") rest)))
      end
  end.

Definition set (key : string) (data : bytes) (e : option number) : M unit :=
  let header := _createHeader (Some {| eol := e |}) in
  let dest := _keyToPath key in
  t ← now sv;
  if lt_eol e t then cb (inl (YError.new "E_END_OF_LIFE" [value_of_eol e]))
  else
    r ← fs_writeFile (dest +:+ ".tmp") (Buffer.concat [header; data]) wx;
    match r with
    | Some err => cb (inl (YError.wrap err "E_ACCESS" [VStr key]))
    | None =>
        fs_unlink dest;;
        r ← fs_rename (dest +:+ ".tmp") dest;
        cb_status r
    end.

(** The write stream is created where [writableStream] is declared, before
    the check of [eol]; on the path of the check no listener is set on
    it. *)
Definition setStream (key : string) (stream : list bytes) (e : option number) : M unit :=
  let header := _createHeader (Some {| eol := e |}) in
  let dest := _keyToPath key in
  writableStream ← fs_createWriteStream (dest +:+ ".tmp") wx;
  let e := eol_or_max e in
  t ← now sv;
  if Number.lt e t then cb (inl (YError.new "E_END_OF_LIFE" [VNum e]))
  else
    match writableStream with
    | Some err => cb (inl (YError.wrap err "E_ACCESS" [VStr key]))
    | None =>
        stream_write (dest +:+ ".tmp") header;;
        pipe stream (dest +:+ ".tmp");;
        r ← fs_rename (dest +:+ ".tmp") dest;
        cb_status r
    end.

(** In the update branch [fs.write] is called, then [cb(null)]; the callback
    of [fs.write] runs after both. *)
Definition setEOL (key : string) (e : option number) : M unit :=
  let e := eol_or_zero e in
  t ← now sv;
  if Number.lt e t then
    r ← fs_unlink (_keyToPath key);
    cb_status r
  else
    r ← fs_open (_keyToPath key) "r+";
    match r with
    | inl err => cb (inl err)
    | inr fd =>
        let header := _createHeader (Some {| eol := Some e |}) in
        r2 ← fs_write fd header 0 HEADER_SIZE 0;
        cb (inr CbNull);;
        match r2 with
        | inl err2 => fs_close fd;; cb (inl err2)
        | inr numBytesWritten =>
            if negb (numBytesWritten =? HEADER_SIZE)%nat then
              cb (inl (YError.new "E_BAD_WRITE" [VNum (num_of_nat numBytesWritten)]));;
              fs_close fd;;
              ret tt
            else
              r3 ← fs_close fd;
              cb_status r3
        end
    end.

End Legacy.
End Legacy.

(** ** Derived states *)

(** A bucket file: the encoded header, then the payload. *)
Definition bucket (h : option header) (payload : bytes) : bytes :=
  _encodeHeader h ++ payload.

(** The files after a publication of [c] at [dest] through [tmp]. *)
Definition published (tmp dest : string) (c : bytes) (d : disk) : disk :=
  with_files (fun m => <[dest := c]> (delete tmp m)) d.

(** A world after one more reading of the clock. *)
Definition ticked (w : world) : world :=
  {| w_disk := w_disk w; ticks := S (ticks w); trace := trace w |}.

(** The disk after the header of the file at [path] was rewritten through a
    descriptor: [n] bytes of [hd] went in, and the descriptor is closed. *)
Definition header_rewritten (path : string) (hd : bytes) (d : disk) : disk :=
  {| files := alter (overwrite 0 (firstn (Nat.min HEADER_SIZE (wlimit d)) hd)) path (files d);
     readonly := readonly d;
     fds := delete (next_fd d) (<[next_fd d := path]> (fds d));
     next_fd := S (next_fd d);
     wlimit := wlimit d;
     hwm := hwm d;
     race := race d |}.

(** How the promise of [setEOL] settles after a short write of [n] bytes,
    under the schedule [s] of its two [fs.close]: with [E_BAD_WRITE] when
    the first call answers first; otherwise with what the second call
    answers, a success when it was the one to close the descriptor. *)
Definition short_write_outcome (s : schedule) (n : nat) : error + unit :=
  if answers_last_first s then
    if closes_last_first s then inr tt else inl (SysErr "EBADF")
  else inl (YError.new "E_BAD_WRITE" [VNum (num_of_nat n)]).

(** What the callback of the first [fs.close] logs when its call failed. *)
Definition close_logs (key : string) (s : schedule) : list event :=
  if closes_last_first s then
    [Logged "error" "Could not close the file descriptor.";
     LoggedError "stack" (YError.cast (SysErr "EBADF") key [])]
  else [].

(** What [setEOL] does, once the header is written, to close the file and to
    release the lock: after a full write, and after a short one. *)
Definition closing_events (key : string) (fd n : nat) (s : schedule) : list event :=
  if (n =? HEADER_SIZE)%nat then [FsClose fd; LockRelease key]
  else
    [FsClose fd; FsClose fd] ++
    (if answers_last_first s then LockRelease key :: close_logs key s
     else close_logs key s ++ [LockRelease key]).

(** ** What the round trip is about *)

(** The last thing the callback implementation did was to call back with
    [r]. *)
Definition called_back (w : world) (r : error + cb_data) : Prop :=
  last (trace w) = Some (Callback r).

(** The payload [P] was stored under [key] with the end of life [e], by one
    of the four writers, taking the world from [w] to [w1]. *)
Inductive stored_by (sv : services) (key : string) (P : bytes) (e : number)
    (w w1 : world) : Prop :=
| by_set :
    Service.set sv key P (Some e) w = (inr tt, w1) ->
    stored_by sv key P e w w1
| by_setStream (cs : list bytes) :
    concat cs = P ->
    Service.setStream sv key cs (Some e) w = (inr tt, w1) ->
    stored_by sv key P e w w1
| by_legacy_set :
    Legacy.set sv key P (Some e) w = (inr tt, w1) ->
    called_back w1 (inr CbNull) ->
    stored_by sv key P e w w1
| by_legacy_setStream (cs : list bytes) :
    concat cs = P ->
    Legacy.setStream sv key cs (Some e) w = (inr tt, w1) ->
    called_back w1 (inr CbNull) ->
    stored_by sv key P e w w1.

(** Each of the four readers hands [P], and nothing else, to its caller. *)
Definition delivers (sv : services) (key : string) (P : bytes) (w : world) : Prop :=
  fst (Service.get sv key w) = inr P /\
  (exists cs, fst (Service.getStream sv key w) = inr cs /\ concat cs = P) /\
  called_back (snd (Legacy.get sv key w)) (inr (CbBuffer P)) /\
  (exists cs, called_back (snd (Legacy.getStream sv key w)) (inr (CbStream cs)) /\
              concat cs = P).

(** On the disk of [w1], and at every reading of the clock that [e] does not
    precede, each of the four readers delivers [P]. *)
Definition served_until (sv : services) (key : string) (P : bytes) (e : number)
    (w1 : world) : Prop :=
  forall w2 : world,
    w_disk w2 = w_disk w1 ->
    Number.lt e (time sv (ticks w2)) = false ->
    delivers sv key P w2.

(** On the disk of [w1], and at every reading of the clock that is past 0,
    each of the four readers refuses the bucket of [key] with
    [E_END_OF_LIFE] of 0. *)
Definition refused_after_zero (sv : services) (key : string) (w1 : world) : Prop :=
  forall w2 : world,
    w_disk w2 = w_disk w1 ->
    Number.lt Number.zero (time sv (ticks w2)) = true ->
    let expired := YError.new "E_END_OF_LIFE" [VNum Number.zero] in
    fst (Service.get sv key w2) = inl expired /\
    fst (Service.getStream sv key w2) = inl expired /\
    called_back (snd (Legacy.get sv key w2)) (inl expired) /\
    called_back (snd (Legacy.getStream sv key w2)) (inl expired).

(** ** A test bench: the clock and the payload of the test suite *)

Definition T0 : Z := 1267833600000.

Definition sv0 : services :=
  {| FS_CACHE_DIR := "/tmp/__nodeFileCache";
     FS_CACHE_TTL := Number.of_Z 3600;
     time := fun _ => Number.of_Z T0;
     sanitize := fun key => key |}.

(** The services of the test bench with a clock that stands at the epoch,
    and with one that is past the sentinel [2^64]. *)
Definition sv_epoch : services :=
  {| FS_CACHE_DIR := FS_CACHE_DIR sv0;
     FS_CACHE_TTL := FS_CACHE_TTL sv0;
     time := fun _ => Number.zero;
     sanitize := sanitize sv0 |}.

Definition sv_far : services :=
  {| FS_CACHE_DIR := FS_CACHE_DIR sv0;
     FS_CACHE_TTL := FS_CACHE_TTL sv0;
     time := fun _ => Number.of_Z (2 ^ 65);
     sanitize := sanitize sv0 |}.

Definition disk0 : disk :=
  {| files := ∅; readonly := ∅; fds := ∅; next_fd := 3;
     wlimit := 4096; hwm := 4%positive; race := in_order |}.

Definition world0 : world := {| w_disk := disk0; ticks := 0; trace := [] |}.

Definition payload0 : bytes := map byte_of_Z [1; 3; 3; 7].

Definition plop_path : string := "/tmp/__nodeFileCache/__plop.bucket".

(** The world once ['plop'] holds [payload0] until [T0 + 1]. *)
Definition world1 : world :=
  snd (Service.set sv0 "plop" payload0 (Some (Number.of_Z (T0 + 1))) world0).

(** The world once ['plop'] holds a bucket, with a stale temporary file left
    beside it. *)
Definition world_stale : world :=
  {| w_disk := with_files (insert (plop_path +:+ ".tmp") payload0) (w_disk world1);
     ticks := ticks world1; trace := [] |}.

(** [world1] on a disk where [fs.write] transfers at most 8 bytes a call. *)
Definition world_short : world :=
  {| w_disk := {| files := files (w_disk world1); readonly := ∅; fds := ∅;
                  next_fd := 3; wlimit := 8; hwm := 4%positive;
                  race := in_order |};
     ticks := 0; trace := [] |}.

(** [world_short] with a thread pool that serves the later of two requests
    first. *)
Definition world_race : world :=
  {| w_disk := {| files := files (w_disk world1); readonly := ∅; fds := ∅;
                  next_fd := 3; wlimit := 8; hwm := 4%positive;
                  race := {| closes_last_first := true;
                             answers_last_first := true |} |};
     ticks := 0; trace := [] |}.

(** The world once ['plop'] was written by [setStream] with an eol of 0. *)
Definition world_zero : world :=
  snd (Service.setStream sv0 "plop" [payload0] (Some Number.zero) world0).

(** ** Write operations, as data

    The six operations that write, with their arguments, so that a property
    of all of them is one statement. *)

Inductive write_op :=
| SetOp (key : string) (data : bytes) (e : option number)
| SetStreamOp (key : string) (stream : list bytes) (e : option number)
| SetEOLOp (key : string) (e : option number)
| LegacySetOp (key : string) (data : bytes) (e : option number)
| LegacySetStreamOp (key : string) (stream : list bytes) (e : option number)
| LegacySetEOLOp (key : string) (e : option number).

Definition op_key (op : write_op) : string :=
  match op with
  | SetOp key _ _ | SetStreamOp key _ _ | SetEOLOp key _
  | LegacySetOp key _ _ | LegacySetStreamOp key _ _ | LegacySetEOLOp key _ => key
  end.

Definition run_write (sv : services) (op : write_op) : M unit :=
  match op with
  | SetOp key data e => Service.set sv key data e
  | SetStreamOp key stream e => Service.setStream sv key stream e
  | SetEOLOp key e => Service.setEOL sv key e
  | LegacySetOp key data e => Legacy.set sv key data e
  | LegacySetStreamOp key stream e => Legacy.setStream sv key stream e
  | LegacySetEOLOp key e => Legacy.setEOL sv key e
  end.

(** The last character of a string. *)
Fixpoint last_char (s : string) : option ascii :=
  match s with
  | EmptyString => None
  | String a EmptyString => Some a
  | String _ rest => last_char rest
  end.

(** The invocations of the caller's callback that a trace holds. *)
Fixpoint callbacks (tr : list event) : list (error + cb_data) :=
  match tr with
  | [] => []
  | Callback r :: rest => r :: callbacks rest
  | _ :: rest => callbacks rest
  end.

(** The lock events of a trace. *)
Fixpoint lock_events (tr : list event) : list event :=
  match tr with
  | [] => []
  | LockTake k :: rest => LockTake k :: lock_events rest
  | LockRelease k :: rest => LockRelease k :: lock_events rest
  | _ :: rest => lock_events rest
  end.

(** [d'] differs from [d] at most in the files at [dest] and [tmp] (and in
    its table of descriptors). *)
Definition touches_only (tmp dest : string) (d d' : disk) : Prop :=
  (forall p : string, p <> dest -> p <> tmp -> files d' !! p = files d !! p) /\
  readonly d' = readonly d /\ wlimit d' = wlimit d /\ hwm d' = hwm d.

(** A world with the disk [d], at the clock reading [t]. *)
Definition world_at (d : disk) (t : nat) : world :=
  {| w_disk := d; ticks := t; trace := [] |}.

(** What the callback implementation last handed to the callback. *)
Definition last_callback (w : world) : option (error + cb_data) :=
  last (callbacks (trace w)).

(** The world after a promise settled, once its outcome is handed to a
    callback: [inj] says how a result is passed. *)
Definition reported {A} (inj : A -> cb_data) (r : (error + A) * world) : world :=
  {| w_disk := w_disk (snd r); ticks := ticks (snd r);
     trace := trace (snd r) ++
       [Callback match fst r with
                 | inl err => inl err
                 | inr a => inr (inj a)
                 end] |}.

(** [m], run from [w], leaves the disk as it is and leaves the lock alone. *)
Definition read_only {A} (m : M A) (w : world) : Prop :=
  w_disk (snd (m w)) = w_disk w /\
  lock_events (trace (snd (m w))) = lock_events (trace w).

(** The eol a call of the promise implementation goes on with: the one it is
    given, or the clock plus the time to live. *)
Definition eol_given (sv : services) (e : option number) (w : world) : number :=
  match e with
  | Some n => n
  | None => Number.add (time sv (ticks w)) (FS_CACHE_TTL sv)
  end.

(** The trace [new] extends [old] by nothing, or by events that all lie
    between one taking and one release of the lock of [key]. *)
Definition in_critical_section (key : string) (old new : list event) : Prop :=
  new = old \/
  exists middle,
    new = old ++ [LockTake key] ++ middle ++ [LockRelease key] /\
    lock_events middle = [].

(** What a write of [content] through [tmp] to [dest] left of the disk [d],
    given its outcome [r]: [d'] has the content published and no temporary
    file, after a success; and the bucket as it was, after a failure with
    [E_END_OF_LIFE] or [E_ACCESS]. *)
Definition published_or_kept (tmp dest : string) (d : disk) (r : error + unit)
    (content : bytes) (d' : disk) : Prop :=
  match r with
  | inr _ => files d' !! dest = Some content /\ files d' !! tmp = None
  | inl err =>
      YError.code_of err = "E_END_OF_LIFE" \/ YError.code_of err = "E_ACCESS" ->
      files d' !! dest = files d !! dest
  end.

(** A sanitizer that drops the slashes of a key, as [sanitize-filename]
    does, and the services of the test bench with it. *)
Fixpoint drop_slashes (s : string) : string :=
  match s with
  | EmptyString => EmptyString
  | String a rest =>
      if Ascii.eqb a "/" then drop_slashes rest else String a (drop_slashes rest)
  end.

Definition sv_slashes : services :=
  {| FS_CACHE_DIR := FS_CACHE_DIR sv0;
     FS_CACHE_TTL := FS_CACHE_TTL sv0;
     time := time sv0;
     sanitize := drop_slashes |}.

(** [m], run from [w], invokes the callback with the results [before] and
    then once more. *)
Definition calls_back (before : list (error + cb_data)) (m : M unit) (w : world) : Prop :=
  exists r, callbacks (trace (snd (m w))) = callbacks (trace w) ++ before ++ [r].

(** No descriptor is open on [d] that was not open on [d0], provided the
    next descriptor of [d0] is free. *)
Definition no_descriptor_left (d0 d : disk) : Prop :=
  fds d0 !! next_fd d0 = None -> fds d = fds d0.

(** * Properties *)

(** ** Numbers and their bits *)

Module NumberFacts.
Import Number.

Lemma digits2_size (m : positive) : digits2_pos m = Pos.size m.
Proof. induction m; simpl; congruence. Qed.

Lemma size_bounds (m : positive) :
  2 ^ Z.pos (Pos.size m) <= 2 * Z.pos m /\ Z.pos m < 2 ^ Z.pos (Pos.size m).
Proof.
  split.
  - pose proof (Pos.size_le m) as H.
    apply Pos2Z.pos_le_pos in H. rewrite Pos2Z.inj_pow in H.
    exact H.
  - pose proof (Pos.size_gt m) as H.
    apply Pos2Z.pos_lt_pos in H. rewrite Pos2Z.inj_pow in H.
    exact H.
Qed.

(** A finite double is normal (53 digits) or subnormal (fewer digits, at
    the least exponent). *)
Lemma bounded_cases (m : positive) (e : Z) :
  bounded prec emax m e = true ->
  (2 ^ 52 <= Z.pos m < 2 ^ 53 /\ -1074 <= e <= 971) \/
  (Z.pos m < 2 ^ 52 /\ e = -1074).
Proof.
  unfold bounded, canonical_mantissa, fexp, emin, prec, emax.
  rewrite andb_true_iff, Z.eqb_eq, Z.leb_le, digits2_size.
  intros [Hc He].
  destruct (size_bounds m) as [Hlo Hhi].
  set (d := Z.pos (Pos.size m)) in *.
  assert (Hd : 0 < d) by (subst d; lia).
  destruct (Z.max_spec (d + e - 53) (3 - 1024 - 53)) as [[Hlt Hmax] | [Hge Hmax]];
    rewrite Hmax in Hc.
  - right. split; [| lia].
    assert (d <= 52) by lia.
    assert (2 ^ d <= 2 ^ 52) by (apply Z.pow_le_mono_r; lia).
    lia.
  - left. assert (d = 53) by lia.
    replace d with 53 in * by lia.
    change (2 ^ 53) with (2 * 2 ^ 52) in *. lia.
Qed.

Lemma bits_of_range (x : number) :
  is_double x = true -> 0 <= bits_of x < 2 ^ 64.
Proof.
  destruct x as [s | s | | s m e]; simpl; intros H.
  - destruct s; simpl; lia.
  - destruct s; simpl; lia.
  - lia.
  - apply bounded_cases in H.
    change (2 ^ 52) with 4503599627370496 in *.
    change (2 ^ 53) with 9007199254740992 in *.
    change (2 ^ 64) with 18446744073709551616 in *.
    destruct (4503599627370496 <=? Z.pos m) eqn:E;
      [apply Z.leb_le in E | apply Z.leb_gt in E];
      destruct s; unfold sign_bit;
      change (2 ^ 63) with 9223372036854775808; lia.
Qed.

Lemma of_bits_parts (s : bool) (E M : Z) :
  0 <= E < 2048 -> 0 <= M < 2 ^ 52 ->
  of_bits (sign_bit s + E * 2 ^ 52 + M) =
    if E =? 0 then
      if M =? 0 then S754_zero s else S754_finite s (Z.to_pos M) (-1074)
    else if E =? 2047 then
      if M =? 0 then S754_infinity s else S754_nan
    else S754_finite s (Z.to_pos (M + 2 ^ 52)) (E - 1075).
Proof.
  intros HE HM. unfold of_bits.
  change (2 ^ 52) with 4503599627370496 in *.
  change (2 ^ 64) with 18446744073709551616 in *.
  change (2 ^ 63) with 9223372036854775808 in *.
  set (b := sign_bit s + E * 4503599627370496 + M).
  assert (Hs : (9223372036854775808 <=? b mod 18446744073709551616) = s).
  { subst b. unfold sign_bit. change (2 ^ 63) with 9223372036854775808.
    destruct s.
    - apply Z.leb_le. rewrite Z.mod_small; lia.
    - apply Z.leb_gt. rewrite Z.mod_small; lia. }
  assert (HEq : (b / 4503599627370496) mod 2048 = E).
  { subst b. unfold sign_bit. change (2 ^ 63) with (2048 * 4503599627370496).
    destruct s.
    - replace (2048 * 4503599627370496 + E * 4503599627370496 + M)
        with (M + (2048 + E) * 4503599627370496) by lia.
      rewrite Z.div_add by lia. rewrite (Z.div_small M) by lia.
      replace (0 + (2048 + E)) with (E + 1 * 2048) by lia.
      rewrite Z.mod_add by lia. apply Z.mod_small; lia.
    - replace (0 + E * 4503599627370496 + M) with (M + E * 4503599627370496) by lia.
      rewrite Z.div_add by lia. rewrite (Z.div_small M) by lia.
      apply Z.mod_small; lia. }
  assert (HMq : b mod 4503599627370496 = M).
  { subst b. unfold sign_bit. change (2 ^ 63) with (2048 * 4503599627370496).
    destruct s.
    - replace (2048 * 4503599627370496 + E * 4503599627370496 + M)
        with (M + (2048 + E) * 4503599627370496) by lia.
      rewrite Z.mod_add by lia. apply Z.mod_small; lia.
    - replace (0 + E * 4503599627370496 + M) with (M + E * 4503599627370496) by lia.
      rewrite Z.mod_add by lia. apply Z.mod_small; lia. }
  rewrite Hs, HEq, HMq. reflexivity.
Qed.

(** Reading back the bits of a double gives the double. *)
Lemma of_bits_of (x : number) : is_double x = true -> of_bits (bits_of x) = x.
Proof.
  destruct x as [s | s | | s m e]; intros H.
  - replace (bits_of (S754_zero s)) with (sign_bit s + 0 * 2 ^ 52 + 0)
      by (simpl; lia).
    rewrite of_bits_parts by (change (2 ^ 52) with 4503599627370496; lia).
    reflexivity.
  - replace (bits_of (S754_infinity s)) with (sign_bit s + 2047 * 2 ^ 52 + 0)
      by (simpl; lia).
    rewrite of_bits_parts by (change (2 ^ 52) with 4503599627370496; lia).
    reflexivity.
  - reflexivity.
  - simpl in H. apply bounded_cases in H. unfold bits_of.
    destruct (2 ^ 52 <=? Z.pos m) eqn:E;
      [apply Z.leb_le in E | apply Z.leb_gt in E].
    + destruct H as [[Hm He] | [Hm _]]; [| lia].
      rewrite <- Z.add_assoc, Z.add_assoc.
      rewrite of_bits_parts by lia.
      destruct (e + 1075 =? 0) eqn:E0; [apply Z.eqb_eq in E0; lia |].
      destruct (e + 1075 =? 2047) eqn:E1; [apply Z.eqb_eq in E1; lia |].
      f_equal; [| lia].
      replace (Z.pos m - 2 ^ 52 + 2 ^ 52) with (Z.pos m) by lia.
      reflexivity.
    + destruct H as [[Hm He] | [Hm He]]; [lia |]. subst e.
      replace (sign_bit s + Z.pos m) with (sign_bit s + 0 * 2 ^ 52 + Z.pos m) by lia.
      rewrite of_bits_parts by lia.
      simpl (0 =? 0).
      destruct (Z.pos m =? 0) eqn:E0; [apply Z.eqb_eq in E0; lia |].
      reflexivity.
Qed.

(** [x < y] excludes [y < x]. *)
Lemma lt_asym (x y : number) : lt x y = true -> lt y x = false.
Proof.
  unfold lt, SFltb.
  destruct x as [sx | sx | | sx mx ex], y as [sy | sy | | sy my ey];
    simpl; try discriminate; try reflexivity;
    try (destruct sx; discriminate || reflexivity);
    try (destruct sy; discriminate || reflexivity);
    try (destruct sx, sy; discriminate || reflexivity).
  destruct sx, sy; try discriminate; try reflexivity.
  - rewrite (Z.compare_antisym ey ex).
    destruct (ey ?= ex) eqn:E; simpl; try discriminate; try reflexivity.
    change (Pos.compare_cont Eq my mx) with (Pos.compare my mx).
    change (Pos.compare_cont Eq mx my) with (Pos.compare mx my).
    rewrite (Pos.compare_antisym my mx).
    destruct (my ?= mx)%positive; simpl; discriminate || reflexivity.
  - rewrite (Z.compare_antisym ey ex).
    destruct (ey ?= ex) eqn:E; simpl; try discriminate; try reflexivity.
    change (Pos.compare_cont Eq my mx) with (Pos.compare my mx).
    change (Pos.compare_cont Eq mx my) with (Pos.compare mx my).
    rewrite (Pos.compare_antisym my mx).
    destruct (my ?= mx)%positive; simpl; discriminate || reflexivity.
Qed.

Lemma lt_not_nan (x y : number) : lt x y = true -> is_nan y = false.
Proof.
  unfold lt, SFltb.
  destruct x as [sx | sx | | sx mx ex], y as [sy | sy | | sy my ey];
    simpl; try discriminate; reflexivity.
Qed.

(** [x || 0] compares like [x], unless [x] is [NaN]. *)
Lemma lt_or_zero (x t : number) :
  is_nan x = false ->
  lt (if truthy x then x else zero) t = lt x t.
Proof.
  destruct x as [s | s | | s m e]; simpl; try reflexivity; discriminate.
Qed.

Lemma is_double_or_zero (x : number) :
  is_double x = true -> is_double (if truthy x then x else zero) = true.
Proof. destruct x; simpl; auto. Qed.

Lemma eqb_refl_finite (x : number) : is_finite x = true -> eqb x x = true.
Proof.
  destruct x as [s | s | | s m e]; simpl; try discriminate; intros _.
  - reflexivity.
  - unfold eqb, SFeqb. simpl.
    rewrite Z.compare_refl, Pos.compare_cont_refl.
    destruct s; reflexivity.
Qed.

End NumberFacts.

(** ** Buffers and the header codec *)

Lemma Z_of_byte_of_Z (z : Z) : Z_of_byte (byte_of_Z z) = z mod 256.
Proof.
  unfold Z_of_byte, byte_of_Z.
  assert (Hr : 0 <= z mod 256 < 256) by (apply Z.mod_pos_bound; lia).
  destruct (Byte.of_N (Z.to_N (z mod 256))) as [b |] eqn:E.
  - apply Byte.to_of_N in E. rewrite E. lia.
  - apply Byte.of_N_None_iff in E. lia.
Qed.

Lemma length_le_bytes (n : nat) (z : Z) : length (le_bytes n z) = n.
Proof. revert z. induction n; simpl; intros; [reflexivity | f_equal; apply IHn]. Qed.

Lemma le_value_le_bytes (n : nat) (z : Z) :
  le_value (le_bytes n z) = z mod 2 ^ (8 * Z.of_nat n).
Proof.
  revert z. induction n as [| n IH]; intros z.
  - simpl. symmetry. apply Z.mod_1_r.
  - cbn [le_bytes le_value]. rewrite Z_of_byte_of_Z, IH.
    replace (8 * Z.of_nat (S n)) with (8 + 8 * Z.of_nat n) by lia.
    rewrite Z.pow_add_r by lia. change (2 ^ 8) with 256.
    rewrite Z.rem_mul_r by lia. reflexivity.
Qed.

Lemma le_value_le_bytes_8 (z : Z) :
  0 <= z < 2 ^ 64 -> le_value (le_bytes 8 z) = z.
Proof.
  intros H. rewrite le_value_le_bytes. change (8 * Z.of_nat 8) with 64.
  apply Z.mod_small. exact H.
Qed.

(** The layout of an encoded header. *)
Lemma encodeHeader_layout (h : option header) :
  _encodeHeader h =
    magic ++ le_bytes 8 (Number.bits_of (eol_or_zero (eol_of h))) ++ filler.
Proof. destruct h as [[e] |]; reflexivity. Qed.

Lemma length_encodeHeader (h : option header) :
  length (_encodeHeader h) = HEADER_SIZE.
Proof.
  rewrite encodeHeader_layout. rewrite !length_app, length_le_bytes. reflexivity.
Qed.

Lemma createHeader_encodeHeader (h : option header) :
  Legacy._createHeader h = _encodeHeader h.
Proof. reflexivity. Qed.

Lemma readHeader_decodeHeader (data : bytes) :
  Legacy._readHeader data = _decodeHeader data.
Proof. reflexivity. Qed.

Lemma byte_eqb_spec (b c : byte) : reflect (b = c) (Byte.eqb b c).
Proof.
  destruct (Byte.eqb b c) eqn:E; constructor.
  - apply Byte.byte_dec_bl. exact E.
  - apply Byte.eqb_false. exact E.
Qed.

Lemma flag_differs_firstn (data : bytes) :
  flag_differs magic 0 data = false <-> firstn 4 data = magic.
Proof.
  change magic with ["B"%byte; "U"%byte; "C"%byte; "K"%byte].
  destruct data as [| b0 [| b1 [| b2 [| b3 rest]]]]; simpl;
    repeat match goal with
      | |- context [Byte.eqb ?a ?b] => destruct (byte_eqb_spec a b); subst
      end;
    split; intros H; try discriminate; try congruence; reflexivity.
Qed.

(** Decoding a buffer that starts with an encoded header. *)
Lemma decodeHeader_encodeHeader_app (h : option header) (payload : bytes) :
  Number.is_double (eol_or_zero (eol_of h)) = true ->
  _decodeHeader (_encodeHeader h ++ payload) =
    inr {| eol := Some (eol_or_zero (eol_of h)) |}.
Proof.
  intros Hd. unfold _decodeHeader.
  rewrite length_app, length_encodeHeader.
  destruct (Nat.ltb_spec (HEADER_SIZE + length payload) HEADER_SIZE) as [Hlt | _];
    [lia |].
  rewrite encodeHeader_layout.
  change (flag_differs (list_byte_of_string HEADER_FLAG) 0
            ((magic ++ le_bytes 8 (Number.bits_of (eol_or_zero (eol_of h))) ++ filler) ++ payload))
    with false.
  unfold Buffer.readDoubleLE.
  change (String.length HEADER_FLAG) with 4%nat.
  rewrite <- !app_assoc.
  rewrite (drop_app_length' magic) by reflexivity.
  rewrite take_app_length' by (symmetry; apply length_le_bytes).
  rewrite le_value_le_bytes_8 by (apply NumberFacts.bits_of_range; exact Hd).
  rewrite NumberFacts.of_bits_of by exact Hd.
  reflexivity.
Qed.

Lemma decodeHeader_encodeHeader (h : option header) :
  Number.is_double (eol_or_zero (eol_of h)) = true ->
  _decodeHeader (_encodeHeader h) = inr {| eol := Some (eol_or_zero (eol_of h)) |}.
Proof.
  intros Hd. rewrite <- (app_nil_r (_encodeHeader h)).
  apply decodeHeader_encodeHeader_app. exact Hd.
Qed.

Lemma drop_encodeHeader_app (h : option header) (payload : bytes) :
  Buffer.slice (_encodeHeader h ++ payload) HEADER_SIZE = payload.
Proof.
  unfold Buffer.slice. apply drop_app_length'. symmetry. apply length_encodeHeader.
Qed.

(** ** Streams *)

Lemma concat_chunks_fuel (fuel n : nat) (l : bytes) :
  (0 < n)%nat -> (length l <= fuel)%nat -> concat (chunks_fuel fuel n l) = l.
Proof.
  intros Hn. revert l. induction fuel as [| fuel IH]; intros l Hl.
  - destruct l; [reflexivity | simpl in Hl; lia].
  - destruct l as [| b l]; [reflexivity |].
    cbn [chunks_fuel concat]. rewrite IH.
    + apply take_drop.
    + rewrite length_drop. simpl in *. lia.
Qed.

Lemma concat_chunks_of (p : positive) (l : bytes) :
  concat (chunks_of (Pos.to_nat p) l) = l.
Proof. apply concat_chunks_fuel; lia. Qed.

(** What [first-chunk-stream] hands over: the first [n] bytes when the
    source has that many, and chunks that hold what follows them. *)
Lemma fc_collect_spec (n : nat) (cs : list bytes) (acc : bytes) :
  (length acc <= n)%nat ->
  forall first rest, fc_collect n acc cs = (first, rest) ->
  first ++ concat rest = acc ++ concat cs /\
  (length first = n \/ ((length first < n)%nat /\ rest = [])).
Proof.
  revert acc. induction cs as [| c cs IH]; intros acc Hacc first rest.
  - simpl. intros [= <- <-]. split; [reflexivity |].
    destruct (decide (length acc = n)); [left | right]; [done | split; [lia | done]].
  - cbn [fc_collect].
    destruct (Nat.ltb_spec (length c) (n - length acc)) as [Hlt | Hge].
    + intros H. apply IH in H; [| rewrite length_app; lia].
      destruct H as [H1 H2]. split; [| exact H2].
      rewrite H1. cbn [concat]. rewrite app_assoc. reflexivity.
    + intros [= <- <-]. split.
      * rewrite <- app_assoc. f_equal.
        rewrite <- (take_drop (n - length acc) c) at 3.
        cbn [concat].
        destruct (drop (n - length acc) c) as [| b r] eqn:E.
        -- rewrite app_nil_r. reflexivity.
        -- cbn [concat]. rewrite <- app_assoc. reflexivity.
      * left. rewrite length_app, length_take. lia.
Qed.

Lemma fc_collect_bucket (n : nat) (cs : list bytes) (hd payload : bytes) :
  length hd = n -> concat cs = hd ++ payload ->
  exists rest, fc_collect n [] cs = (hd, rest) /\ concat rest = payload.
Proof.
  intros Hn Hcs.
  destruct (fc_collect n [] cs) as [first rest] eqn:E.
  destruct (fc_collect_spec n cs [] ltac:(simpl; lia) first rest E) as [H1 H2].
  simpl in H1. rewrite Hcs in H1.
  destruct H2 as [Hlen | [Hlen ->]].
  - apply app_inj_1 in H1; [| congruence].
    destruct H1 as [-> H1]. eauto.
  - simpl in H1. rewrite app_nil_r in H1. subst first.
    rewrite length_app in Hlen. lia.
Qed.

Lemma append_tmp_neq (s : string) : s +:+ ".tmp" <> s.
Proof.
  induction s as [| a s IH]; simpl.
  - discriminate.
  - intros [= H]. exact (IH H).
Qed.

(** ** Running the operations *)

(** Unfolds the plumbing of [M] and of the primitives, and nothing of the
    file system or of the codec. *)
Ltac run_io :=
  cbv beta iota zeta delta
    [mbind mret M_bind M_ret bind ret throw try_catch now emit on_disk
     lock_take lock_release log_line log_error cb cb_status
     fs_readFile fs_writeFile fs_unlink fs_rename fs_open fs_write fs_close
     fs_close_twice last_answers_first Service.settles
     fs_createReadStream fs_createWriteStream stream_write];
  cbn [w_disk ticks trace fst snd].

Ltac list_norm := rewrite <- ?app_assoc; cbn [app].

Section Reads.

Context (sv : services) (key : string) (h : option header) (payload : bytes).
Context (w : world).

Let stored_eol := eol_or_zero (eol_of h).

Hypothesis Hdouble : Number.is_double stored_eol = true.

Lemma service_get_bucket :
  files (w_disk w) !! Service._keyToPath sv key = Some (bucket h payload) ->
  Service.get sv key w =
    (if Number.lt stored_eol (time sv (ticks w))
     then inl (YError.new "E_END_OF_LIFE" [VNum stored_eol])
     else inr payload,
     {| w_disk := w_disk w; ticks := S (ticks w);
        trace := trace w ++ [FsReadFile (Service._keyToPath sv key)] |}).
Proof.
  intros Hf. unfold Service.get. run_io.
  unfold NodeFs.readFile. rewrite Hf. unfold bucket.
  rewrite decodeHeader_encodeHeader_app by exact Hdouble.
  run_io. cbn [eol lt_eol value_of_eol]. fold stored_eol.
  destruct (Number.lt stored_eol (time sv (ticks w))); run_io.
  - reflexivity.
  - rewrite drop_encodeHeader_app. reflexivity.
Qed.

End Reads.

Section StreamReads.

Context (sv : services) (key : string) (h : option header) (payload : bytes).
Context (w : world).

Let stored_eol := eol_or_zero (eol_of h).
Let path := Service._keyToPath sv key.

Hypothesis Hdouble : Number.is_double stored_eol = true.
Hypothesis Hfile : files (w_disk w) !! path = Some (bucket h payload).

Lemma service_getStream_bucket :
  exists cs, concat cs = payload /\
  Service.getStream sv key w =
    (if Number.lt stored_eol (time sv (ticks w))
     then inl (YError.new "E_END_OF_LIFE" [VNum stored_eol])
     else inr cs,
     {| w_disk := w_disk w; ticks := S (ticks w);
        trace := trace w ++ [FsCreateReadStream path] |}).
Proof.
  destruct (fc_collect_bucket HEADER_SIZE
              (chunks_of (Pos.to_nat (hwm (w_disk w))) (bucket h payload))
              (_encodeHeader h) payload) as [rest [Hfc Hrest]].
  { apply length_encodeHeader. }
  { apply concat_chunks_of. }
  exists rest. split; [exact Hrest |].
  unfold Service.getStream. run_io.
  unfold NodeFs.createReadStream. fold path. rewrite Hfile, Hfc.
  rewrite decodeHeader_encodeHeader by exact Hdouble.
  run_io. cbn [eol lt_eol value_of_eol]. fold stored_eol.
  destruct (Number.lt stored_eol (time sv (ticks w))); reflexivity.
Qed.

Lemma legacy_get_bucket :
  Legacy.get sv key w =
    (inr tt,
     {| w_disk := w_disk w; ticks := S (ticks w);
        trace := trace w ++
          [FsReadFile path;
           Callback (if Number.lt stored_eol (time sv (ticks w))
                     then inl (YError.new "E_END_OF_LIFE" [VNum stored_eol])
                     else inr (CbBuffer payload))] |}).
Proof.
  unfold Legacy.get. run_io.
  unfold NodeFs.readFile. change (Legacy._keyToPath sv key) with path.
  rewrite Hfile. unfold bucket.
  rewrite readHeader_decodeHeader.
  rewrite decodeHeader_encodeHeader_app by exact Hdouble.
  run_io. cbn [eol lt_eol value_of_eol]. fold stored_eol.
  destruct (Number.lt stored_eol (time sv (ticks w))); run_io; list_norm.
  - reflexivity.
  - rewrite drop_encodeHeader_app. reflexivity.
Qed.

Lemma legacy_getStream_bucket :
  exists cs, concat cs = payload /\
  Legacy.getStream sv key w =
    (inr tt,
     {| w_disk := w_disk w; ticks := S (ticks w);
        trace := trace w ++
          [FsCreateReadStream path;
           Callback (if Number.lt stored_eol (time sv (ticks w))
                     then inl (YError.new "E_END_OF_LIFE" [VNum stored_eol])
                     else inr (CbStream cs))] |}).
Proof.
  destruct (fc_collect_bucket HEADER_SIZE
              (chunks_of (Pos.to_nat (hwm (w_disk w))) (bucket h payload))
              (_encodeHeader h) payload) as [rest [Hfc Hrest]].
  { apply length_encodeHeader. }
  { apply concat_chunks_of. }
  exists rest. split; [exact Hrest |].
  unfold Legacy.getStream. run_io.
  unfold NodeFs.createReadStream. change (Legacy._keyToPath sv key) with path.
  rewrite Hfile, Hfc. rewrite readHeader_decodeHeader.
  rewrite decodeHeader_encodeHeader by exact Hdouble.
  run_io. cbn [eol lt_eol value_of_eol]. fold stored_eol.
  destruct (Number.lt stored_eol (time sv (ticks w))); run_io; list_norm;
    reflexivity.
Qed.

End StreamReads.

Lemma unlink_disk (p : string) (d : disk) :
  snd (NodeFs.unlink p d) = with_files (delete p) d.
Proof.
  unfold NodeFs.unlink. destruct (files d !! p) eqn:E; [reflexivity |].
  destruct d. unfold with_files. cbn in *. f_equal.
  symmetry. apply delete_id. exact E.
Qed.

Lemma publish_files (tmp dest : string) (c : bytes) (m : gmap string bytes) :
  tmp <> dest ->
  <[dest := c]> (delete tmp (delete dest (<[tmp := c]> m))) = <[dest := c]> (delete tmp m).
Proof.
  intros Hne. apply map_eq. intros k.
  destruct (decide (k = dest)) as [-> | Hd]; [by rewrite !lookup_insert_eq |].
  rewrite !(lookup_insert_ne _ dest k) by done.
  destruct (decide (k = tmp)) as [-> | Ht]; [by rewrite !lookup_delete_eq |].
  rewrite !lookup_delete_ne by done. by rewrite lookup_insert_ne.
Qed.

Section Writes.

Context (sv : services) (key : string) (data : bytes) (e : number) (w : world).

Let dest := Service._keyToPath sv key.
Let tmp := dest +:+ ".tmp".
Let content := bucket (Some {| eol := Some e |}) data.

Lemma service_set_run :
  Number.lt e (time sv (ticks w)) = false ->
  Service.set sv key data (Some e) w =
    match NodeFs.open_for_write tmp "w" (w_disk w) with
    | Some err =>
        (inl (YError.cast err "E_ACCESS" [VStr key]),
         {| w_disk := w_disk w; ticks := S (ticks w);
            trace := trace w ++
              [LockTake key; FsWriteFile tmp content wx; LockRelease key] |})
    | None =>
        (inr tt,
         {| w_disk := published tmp dest content (w_disk w); ticks := S (ticks w);
            trace := trace w ++
              [LockTake key; FsWriteFile tmp content wx; FsUnlink dest;
               FsRename tmp dest; LockRelease key] |})
    end.
Proof.
  intros Hlt. unfold Service.set, Service.default_eol. run_io. rewrite Hlt.
  run_io. fold dest. fold tmp.
  change (Buffer.concat [_encodeHeader (Some {| eol := Some e |}); data])
    with (_encodeHeader (Some {| eol := Some e |}) ++ data ++ []).
  rewrite app_nil_r. fold (bucket (Some {| eol := Some e |}) data). fold content.
  unfold NodeFs.writeFile. cbn [flag wx default].
  destruct (NodeFs.open_for_write tmp "w" (w_disk w)) as [err |] eqn:Eo.
  - run_io. list_norm. reflexivity.
  - run_io.
    pose proof (unlink_disk dest (with_files (insert tmp content) (w_disk w))) as Hu.
    destruct (NodeFs.unlink dest (with_files (insert tmp content) (w_disk w)))
      as [r d1]. cbn [snd] in Hu. subst d1. run_io.
    unfold NodeFs.rename. cbn [files with_files].
    rewrite lookup_delete_ne by (subst tmp; intros H; symmetry in H;
                                 exact (append_tmp_neq dest H)).
    rewrite lookup_insert_eq. run_io. list_norm.
    unfold published, with_files. cbn [files readonly fds next_fd wlimit hwm].
    rewrite publish_files by (apply append_tmp_neq).
    reflexivity.
Qed.

End Writes.

Lemma with_files_ext (f g : gmap string bytes -> gmap string bytes) (d : disk) :
  f (files d) = g (files d) -> with_files f d = with_files g d.
Proof. intros H. unfold with_files. rewrite H. reflexivity. Qed.

Lemma with_files_id (f : gmap string bytes -> gmap string bytes) (d : disk) :
  f (files d) = files d -> with_files f d = d.
Proof. intros H. destruct d. unfold with_files. cbn in *. rewrite H. reflexivity. Qed.

Lemma with_files_twice (f g k : gmap string bytes -> gmap string bytes) (d : disk) :
  f (g (files d)) = k (files d) -> with_files f (with_files g d) = with_files k d.
Proof. intros H. unfold with_files. cbn [files]. rewrite H. reflexivity. Qed.

Lemma insert_alter_eq (f : bytes -> bytes) (p : string) (x : bytes) (m : gmap string bytes) :
  <[p := x]> (alter f p m) = <[p := x]> m.
Proof.
  apply map_eq. intros k. destruct (decide (k = p)) as [-> | Hk].
  - by rewrite !lookup_insert_eq.
  - rewrite !lookup_insert_ne by done. by rewrite lookup_alter_ne.
Qed.

(** Piping chunks into a write stream appends them to the file. *)
Lemma pipe_run (cs : list bytes) (path : string) :
  forall (w : world) (acc : bytes),
  files (w_disk w) !! path = Some acc ->
  pipe cs path w =
    (inr tt,
     {| w_disk := with_files (insert path (acc ++ concat cs)) (w_disk w);
        ticks := ticks w;
        trace := trace w ++ map (StreamWrite path) cs |}).
Proof.
  induction cs as [| c cs IH]; intros w acc Hf.
  - cbn [pipe concat map]. rewrite !app_nil_r.
    rewrite with_files_id by (apply insert_id; exact Hf).
    destruct w; reflexivity.
  - cbn [pipe]. run_io. unfold NodeFs.stream_write.
    rewrite (IH _ (acc ++ c)).
    + cbn [w_disk ticks trace concat map]. list_norm. f_equal. f_equal.
      apply with_files_twice. apply insert_alter_eq.
    + cbn [w_disk with_files files]. rewrite lookup_alter_eq, Hf. reflexivity.
Qed.

Lemma cast_idem (err : error) (c : string) (p : list value) :
  YError.cast (YError.cast err c p) c p = YError.cast err c p.
Proof. destruct err; reflexivity. Qed.

Lemma publish_stream_files (tmp dest : string) (c : bytes)
    (f : gmap string bytes -> gmap string bytes) (m : gmap string bytes) :
  (forall k, k <> tmp -> f m !! k = m !! k) ->
  <[dest := c]> (delete tmp (f m)) = <[dest := c]> (delete tmp m).
Proof.
  intros Hf. apply map_eq. intros k.
  destruct (decide (k = dest)) as [-> | Hd]; [by rewrite !lookup_insert_eq |].
  rewrite !(lookup_insert_ne _ dest k) by done.
  destruct (decide (k = tmp)) as [-> | Ht]; [by rewrite !lookup_delete_eq |].
  rewrite !lookup_delete_ne by done. by apply Hf.
Qed.

Section StreamWrites.

Context (sv : services) (key : string) (cs : list bytes) (e : number) (w : world).

Let dest := Service._keyToPath sv key.
Let tmp := dest +:+ ".tmp".
Let hd := _encodeHeader (Some {| eol := Some e |}).
Let content := bucket (Some {| eol := Some e |}) (concat cs).

Lemma service_setStream_run :
  Number.lt (eol_or_max (Some e)) (time sv (ticks w)) = false ->
  Service.setStream sv key cs (Some e) w =
    match NodeFs.open_for_write tmp "wx" (w_disk w) with
    | Some err =>
        (inl (YError.cast err "E_ACCESS" [VStr key]),
         {| w_disk := w_disk w; ticks := S (ticks w);
            trace := trace w ++
              [LockTake key; FsCreateWriteStream tmp wx; LockRelease key] |})
    | None =>
        (inr tt,
         {| w_disk := published tmp dest content (w_disk w); ticks := S (ticks w);
            trace := trace w ++
              [LockTake key; FsCreateWriteStream tmp wx; StreamWrite tmp hd] ++
              map (StreamWrite tmp) cs ++ [FsRename tmp dest; LockRelease key] |})
    end.
Proof.
  intros Hlt. unfold Service.setStream, Service.default_eol. run_io. rewrite Hlt.
  run_io. fold dest. fold tmp. fold hd.
  unfold NodeFs.createWriteStream. cbn [flags wx default]. unfold id.
  destruct (NodeFs.open_for_write tmp "wx" (w_disk w)) as [err |] eqn:Eo.
  - run_io. list_norm. rewrite cast_idem. reflexivity.
  - run_io. unfold NodeFs.stream_write.
    rewrite (pipe_run cs tmp _ hd).
    2:{ cbn [w_disk with_files files]. rewrite lookup_alter_eq, lookup_insert_eq.
        reflexivity. }
    run_io. unfold NodeFs.rename. cbn [files with_files].
    rewrite lookup_insert_eq. run_io. list_norm.
    f_equal. f_equal.
    unfold published, content, bucket. fold hd.
    unfold with_files. cbn [files readonly fds next_fd wlimit hwm].
    rewrite (publish_stream_files tmp dest (hd ++ concat cs)
               (fun m => <[tmp := hd ++ concat cs]>
                           (alter (fun c => c ++ hd) tmp (<[tmp := []]> m)))).
    + reflexivity.
    + intros k Hk. rewrite lookup_insert_ne by done.
      rewrite lookup_alter_ne by done. by rewrite lookup_insert_ne.
Qed.

End StreamWrites.

Section LegacyWrites.

Context (sv : services) (key : string) (e : option number) (w : world).

Let dest := Service._keyToPath sv key.
Let tmp := dest +:+ ".tmp".

Lemma legacy_set_run (data : bytes) :
  lt_eol e (time sv (ticks w)) = false ->
  Legacy.set sv key data e w =
    (inr tt,
     match NodeFs.open_for_write tmp "w" (w_disk w) with
     | Some err =>
         {| w_disk := w_disk w; ticks := S (ticks w);
            trace := trace w ++
              [FsWriteFile tmp (bucket (Some {| eol := e |}) data) wx;
               Callback (inl (YError.wrap err "E_ACCESS" [VStr key]))] |}
     | None =>
         {| w_disk := published tmp dest (bucket (Some {| eol := e |}) data) (w_disk w);
            ticks := S (ticks w);
            trace := trace w ++
              [FsWriteFile tmp (bucket (Some {| eol := e |}) data) wx;
               FsUnlink dest; FsRename tmp dest; Callback (inr CbNull)] |}
     end).
Proof.
  intros Hlt. unfold Legacy.set. run_io. rewrite Hlt. run_io.
  change (Legacy._keyToPath sv key) with dest. fold tmp.
  change (Buffer.concat [Legacy._createHeader (Some {| eol := e |}); data])
    with (_encodeHeader (Some {| eol := e |}) ++ data ++ []).
  rewrite app_nil_r. fold (bucket (Some {| eol := e |}) data).
  set (content := bucket (Some {| eol := e |}) data).
  unfold NodeFs.writeFile. cbn [flag wx default].
  destruct (NodeFs.open_for_write tmp "w" (w_disk w)) as [err |] eqn:Eo.
  - run_io. list_norm. reflexivity.
  - run_io.
    pose proof (unlink_disk dest (with_files (insert tmp content) (w_disk w))) as Hu.
    destruct (NodeFs.unlink dest (with_files (insert tmp content) (w_disk w)))
      as [r d1]. cbn [snd] in Hu. subst d1. run_io.
    unfold NodeFs.rename. cbn [files with_files].
    rewrite lookup_delete_ne by (subst tmp; intros H; symmetry in H;
                                 exact (append_tmp_neq dest H)).
    rewrite lookup_insert_eq. run_io. list_norm.
    unfold published, with_files. cbn [files readonly fds next_fd wlimit hwm].
    rewrite publish_files by (apply append_tmp_neq).
    reflexivity.
Qed.

Lemma legacy_setStream_run (cs : list bytes) :
  Legacy.setStream sv key cs e w =
    (inr tt,
     if Number.lt (eol_or_max e) (time sv (ticks w)) then
       {| w_disk := snd (NodeFs.createWriteStream tmp wx (w_disk w));
          ticks := S (ticks w);
          trace := trace w ++
            [FsCreateWriteStream tmp wx;
             Callback (inl (YError.new "E_END_OF_LIFE" [VNum (eol_or_max e)]))] |}
     else
       match NodeFs.open_for_write tmp "wx" (w_disk w) with
       | Some err =>
           {| w_disk := w_disk w; ticks := S (ticks w);
              trace := trace w ++
                [FsCreateWriteStream tmp wx;
                 Callback (inl (YError.wrap err "E_ACCESS" [VStr key]))] |}
       | None =>
           {| w_disk := published tmp dest
                          (bucket (Some {| eol := e |}) (concat cs)) (w_disk w);
              ticks := S (ticks w);
              trace := trace w ++
                [FsCreateWriteStream tmp wx;
                 StreamWrite tmp (_encodeHeader (Some {| eol := e |}))] ++
                map (StreamWrite tmp) cs ++ [FsRename tmp dest; Callback (inr CbNull)] |}
       end).
Proof.
  unfold Legacy.setStream. run_io.
  change (Legacy._keyToPath sv key) with dest. fold tmp.
  change (Legacy._createHeader (Some {| eol := e |}))
    with (_encodeHeader (Some {| eol := e |})).
  set (hd := _encodeHeader (Some {| eol := e |})).
  destruct (Number.lt (eol_or_max e) (time sv (ticks w))) eqn:Hlt.
  - destruct (NodeFs.createWriteStream tmp wx (w_disk w)) as [r d1].
    run_io. rewrite Hlt. run_io. list_norm. reflexivity.
  - unfold NodeFs.createWriteStream. cbn [flags wx default]. unfold id.
    destruct (NodeFs.open_for_write tmp "wx" (w_disk w)) as [err |] eqn:Eo.
    + run_io. rewrite Hlt. run_io. list_norm. reflexivity.
    + run_io. rewrite Hlt. run_io. unfold NodeFs.stream_write.
      rewrite (pipe_run cs tmp _ hd).
      2:{ cbn [w_disk with_files files]. rewrite lookup_alter_eq, lookup_insert_eq.
          reflexivity. }
      run_io. unfold NodeFs.rename. cbn [files with_files].
      rewrite lookup_insert_eq. run_io. list_norm.
      f_equal. f_equal.
      unfold published, bucket. fold hd.
      unfold with_files. cbn [files readonly fds next_fd wlimit hwm].
      rewrite (publish_stream_files tmp dest (hd ++ concat cs)
                 (fun m => <[tmp := hd ++ concat cs]>
                             (alter (fun c => c ++ hd) tmp (<[tmp := []]> m)))).
      * reflexivity.
      * intros k Hk. rewrite lookup_insert_ne by done.
        rewrite lookup_alter_ne by done. by rewrite lookup_insert_ne.
Qed.

End LegacyWrites.

Section Expired.

Context (sv : services) (key : string) (e : number) (w : world).

Lemma service_set_expired (data : bytes) :
  Number.lt e (time sv (ticks w)) = true ->
  Service.set sv key data (Some e) w =
    (inl (YError.new "E_END_OF_LIFE" [VNum e]), ticked w).
Proof.
  intros Hlt. unfold Service.set, Service.default_eol. run_io. rewrite Hlt.
  reflexivity.
Qed.

Lemma service_setStream_expired (cs : list bytes) :
  Number.lt (eol_or_max (Some e)) (time sv (ticks w)) = true ->
  Service.setStream sv key cs (Some e) w =
    (inl (YError.new "E_END_OF_LIFE" [VNum (eol_or_max (Some e))]), ticked w).
Proof.
  intros Hlt. unfold Service.setStream, Service.default_eol. run_io. rewrite Hlt.
  reflexivity.
Qed.

Lemma legacy_set_expired (data : bytes) :
  Number.lt e (time sv (ticks w)) = true ->
  Legacy.set sv key data (Some e) w =
    (inr tt,
     {| w_disk := w_disk w; ticks := S (ticks w);
        trace := trace w ++ [Callback (inl (YError.new "E_END_OF_LIFE" [VNum e]))] |}).
Proof.
  intros Hlt. unfold Legacy.set. run_io. cbn [lt_eol]. rewrite Hlt.
  reflexivity.
Qed.

End Expired.

Lemma length_written (hd : bytes) (d : disk) :
  length hd = HEADER_SIZE ->
  length (firstn (Nat.min HEADER_SIZE (wlimit d)) hd) = Nat.min HEADER_SIZE (wlimit d).
Proof. intros H. rewrite length_take. lia. Qed.

Lemma overwrite_payload (chunk content : bytes) :
  (length chunk <= HEADER_SIZE)%nat ->
  skipn HEADER_SIZE (overwrite 0 chunk content) = skipn HEADER_SIZE content.
Proof.
  intros H. change (overwrite 0 chunk content) with (chunk ++ skipn (length chunk) content).
  rewrite drop_app_ge by exact H. rewrite drop_drop. f_equal. lia.
Qed.

Lemma overwrite_header (hd content : bytes) :
  overwrite 0 hd content = hd ++ skipn (length hd) content.
Proof. reflexivity. Qed.

Section SetEOL.

Context (sv : services) (key : string) (e : number) (w : world).

Let path := Service._keyToPath sv key.
Let hd := _encodeHeader (Some {| eol := Some e |}).
Let n := Nat.min HEADER_SIZE (wlimit (w_disk w)).

Lemma service_setEOL_delete :
  Number.lt e (time sv (ticks w)) = true ->
  Service.setEOL sv key (Some e) w =
    match files (w_disk w) !! path with
    | Some _ =>
        (inr tt,
         {| w_disk := with_files (delete path) (w_disk w); ticks := S (ticks w);
            trace := trace w ++ [LockTake key; FsUnlink path] |})
    | None =>
        (inl (SysErr "ENOENT"),
         {| w_disk := w_disk w; ticks := S (ticks w);
            trace := trace w ++ [LockTake key; FsUnlink path; LockRelease key] |})
    end.
Proof.
  intros Hlt. unfold Service.setEOL, Service.default_eol. run_io. rewrite Hlt.
  run_io. fold path. unfold NodeFs.unlink.
  destruct (files (w_disk w) !! path); run_io; list_norm; reflexivity.
Qed.

Lemma service_setEOL_missing :
  Number.lt e (time sv (ticks w)) = false ->
  files (w_disk w) !! path = None ->
  Service.setEOL sv key (Some e) w =
    (inl (SysErr "ENOENT"),
     {| w_disk := w_disk w; ticks := S (ticks w);
        trace := trace w ++ [FsOpen path "r+"; LockRelease key] |}).
Proof.
  intros Hlt Hf. unfold Service.setEOL, Service.default_eol, Service.rewrite_header.
  run_io. rewrite Hlt.
  run_io. fold path. unfold NodeFs.open. rewrite Hf.
  run_io. list_norm. reflexivity.
Qed.

Lemma service_setEOL_update (content : bytes) :
  Number.lt e (time sv (ticks w)) = false ->
  files (w_disk w) !! path = Some content ->
  path ∉ readonly (w_disk w) ->
  Service.setEOL sv key (Some e) w =
    (if (n =? HEADER_SIZE)%nat then inr tt
     else short_write_outcome (race (w_disk w)) n,
     {| w_disk := header_rewritten path hd (w_disk w); ticks := S (ticks w);
        trace := trace w ++
          [FsOpen path "r+"; FsWrite (next_fd (w_disk w)) hd 0 HEADER_SIZE 0] ++
          closing_events key (next_fd (w_disk w)) n (race (w_disk w)) |}).
Proof.
  intros Hlt Hf Hro.
  unfold Service.setEOL, Service.default_eol, Service.rewrite_header.
  run_io. rewrite Hlt.
  run_io. fold path. fold hd. unfold NodeFs.open. rewrite Hf.
  destruct (decide (path ∈ readonly (w_disk w))) as [Hin | _]; [done |].
  run_io. unfold NodeFs.write. cbn [fds with_fds]. rewrite lookup_insert_eq.
  change (skipn 0 hd) with hd. cbn [wlimit with_fds].
  rewrite (length_written hd (w_disk w)) by apply length_encodeHeader. fold n.
  unfold closing_events, short_write_outcome, close_logs.
  destruct (n =? HEADER_SIZE)%nat eqn:En; cbn [negb]; run_io.
  - unfold NodeFs.close. cbn [fds with_fds with_files]. rewrite lookup_insert_eq.
    run_io. list_norm. reflexivity.
  - unfold NodeFs.close_twice. cbn [fds with_fds with_files race].
    rewrite lookup_insert_eq.
    destruct (race (w_disk w)) as [[|] [|]] eqn:Er;
      cbn [closes_last_first answers_last_first]; run_io;
      cbn [race with_fds with_files]; rewrite ?Er;
      cbn [closes_last_first answers_last_first]; run_io;
      list_norm; reflexivity.
Qed.

End SetEOL.

Section LegacySetEOL.

Context (sv : services) (key : string) (e : option number) (w : world).

Let path := Service._keyToPath sv key.
Let hd := _encodeHeader (Some {| eol := Some (eol_or_zero e) |}).
Let n := Nat.min HEADER_SIZE (wlimit (w_disk w)).

Lemma legacy_setEOL_delete :
  Number.lt (eol_or_zero e) (time sv (ticks w)) = true ->
  Legacy.setEOL sv key e w =
    (inr tt,
     match files (w_disk w) !! path with
     | Some _ =>
         {| w_disk := with_files (delete path) (w_disk w); ticks := S (ticks w);
            trace := trace w ++ [FsUnlink path; Callback (inr CbNull)] |}
     | None =>
         {| w_disk := w_disk w; ticks := S (ticks w);
            trace := trace w ++ [FsUnlink path; Callback (inl (SysErr "ENOENT"))] |}
     end).
Proof.
  intros Hlt. unfold Legacy.setEOL. run_io. rewrite Hlt.
  run_io. change (Legacy._keyToPath sv key) with path. unfold NodeFs.unlink.
  destruct (files (w_disk w) !! path); run_io; list_norm; reflexivity.
Qed.

Lemma legacy_setEOL_missing :
  Number.lt (eol_or_zero e) (time sv (ticks w)) = false ->
  files (w_disk w) !! path = None ->
  Legacy.setEOL sv key e w =
    (inr tt,
     {| w_disk := w_disk w; ticks := S (ticks w);
        trace := trace w ++ [FsOpen path "r+"; Callback (inl (SysErr "ENOENT"))] |}).
Proof.
  intros Hlt Hf. unfold Legacy.setEOL. run_io. rewrite Hlt.
  run_io. change (Legacy._keyToPath sv key) with path. unfold NodeFs.open.
  rewrite Hf. run_io. list_norm. reflexivity.
Qed.

Lemma legacy_setEOL_update (content : bytes) :
  Number.lt (eol_or_zero e) (time sv (ticks w)) = false ->
  files (w_disk w) !! path = Some content ->
  path ∉ readonly (w_disk w) ->
  Legacy.setEOL sv key e w =
    (inr tt,
     {| w_disk := header_rewritten path hd (w_disk w); ticks := S (ticks w);
        trace := trace w ++
          [FsOpen path "r+"; FsWrite (next_fd (w_disk w)) hd 0 HEADER_SIZE 0;
           Callback (inr CbNull)] ++
          (if (n =? HEADER_SIZE)%nat
           then [FsClose (next_fd (w_disk w)); Callback (inr CbNull)]
           else [Callback (inl (YError.new "E_BAD_WRITE" [VNum (num_of_nat n)]));
                 FsClose (next_fd (w_disk w))]) |}).
Proof.
  intros Hlt Hf Hro. unfold Legacy.setEOL. run_io. rewrite Hlt.
  run_io. change (Legacy._keyToPath sv key) with path.
  change (Legacy._createHeader (Some {| eol := Some (eol_or_zero e) |})) with hd.
  unfold NodeFs.open. rewrite Hf.
  destruct (decide (path ∈ readonly (w_disk w))) as [Hin | _]; [done |].
  run_io. unfold NodeFs.write. cbn [fds with_fds]. rewrite lookup_insert_eq.
  change (skipn 0 hd) with hd. cbn [wlimit with_fds].
  rewrite (length_written hd (w_disk w)) by apply length_encodeHeader. fold n.
  destruct (n =? HEADER_SIZE)%nat eqn:En; cbn [negb]; run_io.
  - unfold NodeFs.close. cbn [fds with_fds with_files]. rewrite lookup_insert_eq.
    run_io. list_norm. reflexivity.
  - unfold NodeFs.close. cbn [fds with_fds with_files]. rewrite lookup_insert_eq.
    run_io. list_norm. reflexivity.
Qed.

End LegacySetEOL.

(** ** C1: the round trip *)

Lemma sentinel_not_before (s : bool) (t : number) :
  Number.lt t (S754_zero s) = true -> Number.lt Number.max_sentinel t = false.
Proof.
  destruct t as [s0 | s0 | | s0 m0 e0]; try discriminate;
    destruct s0; try discriminate; reflexivity.
Qed.

Lemma stored_by_file sv key P e w w1 :
  Number.lt (time sv (ticks w)) e = true ->
  stored_by sv key P e w w1 ->
  files (w_disk w1) !! Service._keyToPath sv key =
    Some (bucket (Some {| eol := Some e |}) P).
Proof.
  intros Hgt Hst.
  pose proof (NumberFacts.lt_asym _ _ Hgt) as Hlt.
  assert (Hmax : Number.lt (eol_or_max (Some e)) (time sv (ticks w)) = false).
  { cbn [eol_or_max]. destruct (Number.truthy e) eqn:Et; [exact Hlt |].
    pose proof (NumberFacts.lt_not_nan _ _ Hgt) as Hnan.
    destruct e as [s | s | | s m x]; try discriminate Et; [| discriminate Hnan].
    exact (sentinel_not_before s _ Hgt). }
  destruct Hst as [Hrun | cs Hcs Hrun | Hrun Hcb | cs Hcs Hrun Hcb].
  - rewrite service_set_run in Hrun by exact Hlt.
    destruct (NodeFs.open_for_write _ _ _); [discriminate |].
    injection Hrun as <-. cbn [w_disk published with_files files].
    apply lookup_insert_eq.
  - rewrite service_setStream_run in Hrun by exact Hmax.
    destruct (NodeFs.open_for_write _ _ _); [discriminate |].
    injection Hrun as <-. cbn [w_disk published with_files files].
    rewrite Hcs. apply lookup_insert_eq.
  - rewrite legacy_set_run in Hrun by exact Hlt.
    injection Hrun as <-. unfold called_back in Hcb.
    destruct (NodeFs.open_for_write _ _ _); cbn [trace w_disk] in *.
    + rewrite last_app in Hcb. cbn in Hcb. discriminate.
    + cbn [published with_files files]. apply lookup_insert_eq.
  - rewrite legacy_setStream_run, Hmax in Hrun.
    injection Hrun as <-. unfold called_back in Hcb.
    destruct (NodeFs.open_for_write _ _ _); cbn [trace w_disk] in *.
    + rewrite last_app in Hcb. cbn in Hcb. discriminate.
    + cbn [published with_files files]. rewrite Hcs. apply lookup_insert_eq.
Qed.

Lemma bucket_delivers sv key P e w :
  Number.is_double e = true ->
  Number.is_nan e = false ->
  files (w_disk w) !! Service._keyToPath sv key =
    Some (bucket (Some {| eol := Some e |}) P) ->
  Number.lt e (time sv (ticks w)) = false ->
  delivers sv key P w.
Proof.
  intros Hd Hnan Hf Hlt.
  assert (Hd' : Number.is_double (eol_or_zero (eol_of (Some {| eol := Some e |}))) = true)
    by (apply NumberFacts.is_double_or_zero; exact Hd).
  assert (Hlt' : Number.lt (eol_or_zero (eol_of (Some {| eol := Some e |})))
                   (time sv (ticks w)) = false).
  { cbn [eol_of eol eol_or_zero]. rewrite NumberFacts.lt_or_zero by exact Hnan.
    exact Hlt. }
  unfold delivers, called_back. repeat split.
  - rewrite (service_get_bucket sv key _ P w Hd' Hf), Hlt'. reflexivity.
  - destruct (service_getStream_bucket sv key _ P w Hd' Hf) as [cs [Hcs Hrun]].
    exists cs. rewrite Hrun, Hlt'. split; [reflexivity | exact Hcs].
  - rewrite (legacy_get_bucket sv key _ P w Hd' Hf), Hlt'. cbn [snd trace].
    rewrite last_app. reflexivity.
  - destruct (legacy_getStream_bucket sv key _ P w Hd' Hf) as [cs [Hcs Hrun]].
    exists cs. rewrite Hrun, Hlt'. cbn [snd trace]. rewrite last_app.
    split; [reflexivity | exact Hcs].
Qed.

Lemma open_w_allowed (path : string) (d : disk) :
  path ∉ readonly d -> NodeFs.open_for_write path "w" d = None.
Proof.
  intros H. unfold NodeFs.open_for_write.
  destruct (decide (path ∈ readonly d)); [contradiction |].
  destruct (decide (_ ∧ _)) as [[Hw _] |]; [discriminate Hw | reflexivity].
Qed.

Lemma open_wx_allowed (path : string) (d : disk) :
  path ∉ readonly d -> files d !! path = None ->
  NodeFs.open_for_write path "wx" d = None.
Proof.
  intros H Hf. unfold NodeFs.open_for_write. rewrite Hf.
  destruct (decide (path ∈ readonly d)); [contradiction |].
  destruct (decide (_ ∧ is_Some None)) as [[_ [x Hx]] |]; [discriminate Hx | reflexivity].
Qed.

Lemma stored_is_served sv key P e w w1 :
  Number.is_double e = true ->
  Number.lt (time sv (ticks w)) e = true ->
  stored_by sv key P e w w1 ->
  served_until sv key P e w1.
Proof.
  intros Hd Hgt Hst w2 Hdisk Hlt.
  apply bucket_delivers with (e := e).
  - exact Hd.
  - exact (NumberFacts.lt_not_nan _ _ Hgt).
  - rewrite Hdisk. exact (stored_by_file sv key P e w w1 Hgt Hst).
  - exact Hlt.
Qed.

Lemma later_eol_passes (e t : number) :
  Number.lt t e = true ->
  Number.lt e t = false /\ Number.lt (eol_or_max (Some e)) t = false.
Proof.
  intros Hgt. pose proof (NumberFacts.lt_asym _ _ Hgt) as Hlt.
  split; [exact Hlt |].
  cbn [eol_or_max]. destruct (Number.truthy e) eqn:Et; [exact Hlt |].
  pose proof (NumberFacts.lt_not_nan _ _ Hgt) as Hnan.
  destruct e as [s | s | | s m x]; try discriminate Et; [| discriminate Hnan].
  exact (sentinel_not_before s _ Hgt).
Qed.

(** C1. Transport round trip.  Given an end of life [e] later than the
    clock and a temporary file that can be written, [set] of a payload
    succeeds, and so does [setStream] of chunks when no temporary file is
    in its way; on the disk that the writer leaves, and at any reading of
    the clock that [e] does not precede, the payload (for [setStream], what
    the chunks make up) is what [get] returns and what the chunks of the
    stream of [getStream] make up: no byte of the header is delivered.  It
    holds for the promise and for the callback implementation, in every
    combination of writer and reader. *)
Theorem transport_round_trip (sv : services) (key : string) (P : bytes)
    (cs : list bytes) (e : number) (w : world) :
  Number.is_double e = true ->
  Number.lt (time sv (ticks w)) e = true ->
  Service._keyToPath sv key +:+ ".tmp" ∉ readonly (w_disk w) ->
  (fst (Service.set sv key P (Some e) w) = inr tt /\
   served_until sv key P e (snd (Service.set sv key P (Some e) w))) /\
  (called_back (snd (Legacy.set sv key P (Some e) w)) (inr CbNull) /\
   served_until sv key P e (snd (Legacy.set sv key P (Some e) w))) /\
  (files (w_disk w) !! (Service._keyToPath sv key +:+ ".tmp") = None ->
   (fst (Service.setStream sv key cs (Some e) w) = inr tt /\
    served_until sv key (concat cs) e (snd (Service.setStream sv key cs (Some e) w))) /\
   (called_back (snd (Legacy.setStream sv key cs (Some e) w)) (inr CbNull) /\
    served_until sv key (concat cs) e (snd (Legacy.setStream sv key cs (Some e) w)))).
Proof.
  intros Hd Hgt Hro.
  destruct (later_eol_passes _ _ Hgt) as [Hlt Hmax].
  pose proof (open_w_allowed _ _ Hro) as Hw.
  assert (Hset : Service.set sv key P (Some e) w =
                 (inr tt, snd (Service.set sv key P (Some e) w)))
    by (rewrite service_set_run, Hw by exact Hlt; reflexivity).
  assert (Hlset : Legacy.set sv key P (Some e) w =
                  (inr tt, snd (Legacy.set sv key P (Some e) w)))
    by (rewrite legacy_set_run by exact Hlt; reflexivity).
  assert (Hcb : called_back (snd (Legacy.set sv key P (Some e) w)) (inr CbNull)).
  { rewrite legacy_set_run, Hw by exact Hlt. unfold called_back. cbn [snd trace].
    rewrite last_app. reflexivity. }
  split; [| split].
  - split; [rewrite Hset; reflexivity |].
    apply (stored_is_served sv key P e w _ Hd Hgt). apply by_set. exact Hset.
  - split; [exact Hcb |].
    apply (stored_is_served sv key P e w _ Hd Hgt). apply by_legacy_set; assumption.
  - intros Hf. pose proof (open_wx_allowed _ _ Hro Hf) as Hwx.
    assert (Hst : Service.setStream sv key cs (Some e) w =
                  (inr tt, snd (Service.setStream sv key cs (Some e) w)))
      by (rewrite service_setStream_run, Hwx by exact Hmax; reflexivity).
    assert (Hlst : Legacy.setStream sv key cs (Some e) w =
                   (inr tt, snd (Legacy.setStream sv key cs (Some e) w)))
      by (rewrite legacy_setStream_run; reflexivity).
    assert (Hcbs : called_back (snd (Legacy.setStream sv key cs (Some e) w)) (inr CbNull)).
    { rewrite legacy_setStream_run, Hmax, Hwx. unfold called_back. cbn [snd trace].
      rewrite !last_app. reflexivity. }
    split.
    + split; [rewrite Hst; reflexivity |].
      apply (stored_is_served sv key _ e w _ Hd Hgt).
      apply (by_setStream _ _ _ _ _ _ cs); [reflexivity | exact Hst].
    + split; [exact Hcbs |].
      apply (stored_is_served sv key _ e w _ Hd Hgt).
      apply (by_legacy_setStream _ _ _ _ _ _ cs); [reflexivity | exact Hlst | exact Hcbs].
Qed.

Lemma transport_round_trip_witness :
  fst (Service.setStream sv0 "plop" [payload0] (Some (Number.of_Z (T0 + 1))) world0) =
    inr tt /\
  delivers sv0 "plop" payload0
    (snd (Service.setStream sv0 "plop" [payload0] (Some (Number.of_Z (T0 + 1))) world0)) /\
  delivers sv0 "plop" payload0
    (snd (Legacy.setStream sv0 "plop" [payload0] (Some (Number.of_Z (T0 + 1))) world0)) /\
  delivers sv0 "plop" payload0 world1.
Proof.
  destruct (transport_round_trip sv0 "plop" payload0 [payload0] (Number.of_Z (T0 + 1))
              world0) as ((_ & Hset) & _ & Hstreams).
  - vm_compute. reflexivity.
  - vm_compute. reflexivity.
  - vm_compute. discriminate.
  - destruct Hstreams as ((Hok & Hs) & _ & Hl); [vm_compute; reflexivity |].
    split; [exact Hok |].
    split; [apply Hs; [reflexivity | vm_compute; reflexivity] |].
    split; [apply Hl; [reflexivity | vm_compute; reflexivity] |].
    apply Hset; [reflexivity | vm_compute; reflexivity].
Defined.

(** ** C5, C6, C7: the header *)

Example encodeHeader_12 :
  _encodeHeader (Some {| eol := Some (Number.of_Z 12) |}) =
  map byte_of_Z [66; 85; 67; 75; 0; 0; 0; 0; 0; 0; 40; 64;
                 120; 120; 120; 120; 120; 120; 120; 120].
Proof. vm_compute. reflexivity. Qed.

Example decodeHeader_12 :
  _decodeHeader (map byte_of_Z [66; 85; 67; 75; 0; 0; 0; 0; 0; 0; 40; 64;
                                120; 120; 120; 120; 120; 120; 120; 120]) =
  inr {| eol := Some (Number.of_Z 12) |}.
Proof. vm_compute. reflexivity. Qed.



Lemma decodeHeader_cases (b : bytes) :
  _decodeHeader b =
    if (length b <? HEADER_SIZE)%nat then
      inl (YError.new "E_BAD_HEADER_SIZE" [VNum (num_of_nat (length b))])
    else if flag_differs magic 0 b then
      inl (YError.new "E_BAD_HEADER_FMT" [VBuf b])
    else inr {| eol := Some (Number.of_bits (le_value (firstn 8 (skipn 4 b)))) |}.
Proof. reflexivity. Qed.

Lemma window_prefix (b b' : bytes) :
  firstn HEADER_SIZE b' = firstn HEADER_SIZE b ->
  firstn 4 b' = firstn 4 b /\ firstn 8 (skipn 4 b') = firstn 8 (skipn 4 b).
Proof.
  intros H. split.
  - change 4%nat with (Nat.min 4 HEADER_SIZE).
    rewrite <- !firstn_firstn. rewrite H. reflexivity.
  - assert (H16 : firstn 16 (skipn 4 b') = firstn 16 (skipn 4 b)).
    { change 16%nat with (HEADER_SIZE - 4)%nat.
      rewrite <- !skipn_firstn_comm. rewrite H. reflexivity. }
    change 8%nat with (Nat.min 8 16).
    rewrite <- !firstn_firstn. rewrite H16. reflexivity.
Qed.

(** C6. The failure modes of [decodeHeader]: it fails with
    [E_BAD_HEADER_SIZE] exactly on the buffers shorter than [HEADER_SIZE],
    with [E_BAD_HEADER_FMT] exactly on the buffers that are long enough and
    do not start with the tag, and otherwise returns the little-endian
    binary64 at offset 4; it is a function of the buffer, whose outcome is
    decided by the first [HEADER_SIZE] bytes; [_readHeader] of the callback
    implementation is the same function. *)
Theorem decodeHeader_failure_modes (b : bytes) :
  (_decodeHeader b =
     inl (YError.new "E_BAD_HEADER_SIZE" [VNum (num_of_nat (length b))])
   <-> (length b < HEADER_SIZE)%nat) /\
  (_decodeHeader b = inl (YError.new "E_BAD_HEADER_FMT" [VBuf b])
   <-> (HEADER_SIZE <= length b)%nat /\ firstn 4 b <> magic) /\
  (_decodeHeader b =
     inr {| eol := Some (Number.of_bits (le_value (firstn 8 (skipn 4 b)))) |}
   <-> (HEADER_SIZE <= length b)%nat /\ firstn 4 b = magic) /\
  (forall b' : bytes,
     (HEADER_SIZE <= length b)%nat -> (HEADER_SIZE <= length b')%nat ->
     firstn HEADER_SIZE b' = firstn HEADER_SIZE b ->
     match _decodeHeader b, _decodeHeader b' with
     | inr hdr, inr hdr' => hdr = hdr'
     | inl err, inl err' => YError.code_of err = YError.code_of err'
     | _, _ => False
     end) /\
  Legacy._readHeader b = _decodeHeader b.
Proof.
  change (Legacy._readHeader b) with (_decodeHeader b).
  rewrite decodeHeader_cases.
  pose proof (flag_differs_firstn b) as Hflag.
  destruct (Nat.ltb_spec (length b) HEADER_SIZE) as [Hlen | Hlen].
  - split; [split; [intros _; exact Hlen | reflexivity] |].
    split; [split; [discriminate | intros [H _]; lia] |].
    split; [split; [discriminate | intros [H _]; lia] |].
    split; [intros b' H; lia | reflexivity].
  - destruct (flag_differs magic 0 b) eqn:Ef.
    + assert (Hne : firstn 4 b <> magic).
      { intros H. apply Hflag in H. discriminate. }
      split; [split; [discriminate | lia] |].
      split; [split; [intros _; split; [exact Hlen | exact Hne] | reflexivity] |].
      split; [split; [discriminate | intros [_ H]; contradiction] |].
      split; [| reflexivity].
      intros b' _ Hlen' Hpre.
      rewrite decodeHeader_cases.
      destruct (Nat.ltb_spec (length b') HEADER_SIZE) as [H' | _]; [lia |].
      destruct (window_prefix b b' Hpre) as [H4 _].
      destruct (flag_differs magic 0 b') eqn:Ef'; [reflexivity |].
      apply flag_differs_firstn in Ef'. rewrite H4 in Ef'. contradiction.
    + assert (Heq : firstn 4 b = magic) by (apply Hflag; reflexivity).
      split; [split; [discriminate | lia] |].
      split; [split; [discriminate | intros [_ H]; contradiction] |].
      split; [split; [intros _; split; [exact Hlen | exact Heq] | reflexivity] |].
      split; [| reflexivity].
      intros b' _ Hlen' Hpre.
      rewrite decodeHeader_cases.
      destruct (Nat.ltb_spec (length b') HEADER_SIZE) as [H' | _]; [lia |].
      destruct (window_prefix b b' Hpre) as [H4 H8].
      destruct (flag_differs magic 0 b') eqn:Ef'.
      * assert (H : firstn 4 b' = magic) by congruence.
        apply flag_differs_firstn in H. congruence.
      * rewrite H8. reflexivity.
Qed.

Lemma decodeHeader_failure_modes_witness :
  _decodeHeader (_encodeHeader None ++ payload0) = inr {| eol := Some Number.zero |}.
Proof.
  destruct (decodeHeader_failure_modes (_encodeHeader None ++ payload0))
    as (_ & _ & [_ H] & _).
  rewrite H; [vm_compute; reflexivity |].
  split; [vm_compute; lia | reflexivity].
Defined.

(** C7. Header round trip: decoding the header encoded for a finite eol
    (zero, 12, or any other finite binary64) gives a header whose eol is
    that eol: equal to it as JS numbers are, and the same value unless the
    eol was the negative zero, which is stored as zero. *)
Theorem header_round_trip (e : number) :
  Number.is_double e = true ->
  Number.is_finite e = true ->
  exists e' : number,
    _decodeHeader (_encodeHeader (Some {| eol := Some e |})) = inr {| eol := Some e' |} /\
    Number.eqb e' e = true /\
    (e <> S754_zero true -> e' = e).
Proof.
  intros Hd Hfin. exists (eol_or_zero (Some e)). split; [| split].
  - apply (decodeHeader_encodeHeader (Some {| eol := Some e |})).
    cbn [eol_of eol eol_or_zero]. apply NumberFacts.is_double_or_zero. exact Hd.
  - destruct e as [s | s | | s m x]; try discriminate Hfin.
    + reflexivity.
    + apply (NumberFacts.eqb_refl_finite (S754_finite s m x)). reflexivity.
  - intros Hne. destruct e as [[|] | s | | s m x]; try discriminate Hfin;
      try reflexivity. contradiction.
Qed.

Lemma header_round_trip_witness :
  exists e' : number,
    _decodeHeader (_encodeHeader (Some {| eol := Some (Number.of_Z 12) |})) =
      inr {| eol := Some e' |} /\
    Number.eqb e' (Number.of_Z 12) = true /\
    (Number.of_Z 12 <> S754_zero true -> e' = Number.of_Z 12).
Proof.
  apply (header_round_trip (Number.of_Z 12)); vm_compute; reflexivity.
Defined.

Example header_round_trip_values :
  _decodeHeader (_encodeHeader (Some {| eol := Some (Number.of_Z 0) |})) =
    inr {| eol := Some (Number.of_Z 0) |} /\
  _decodeHeader (_encodeHeader (Some {| eol := Some (Number.of_Z 12) |})) =
    inr {| eol := Some (Number.of_Z 12) |} /\
  _decodeHeader (_encodeHeader (Some {| eol := Some (Number.of_Z T0) |})) =
    inr {| eol := Some (Number.of_Z T0) |} /\
  _decodeHeader (_encodeHeader (Some {| eol := Some Number.max_sentinel |})) =
    inr {| eol := Some Number.max_sentinel |}.
Proof. vm_compute. repeat split; reflexivity. Qed.

(** ** C2: the lock *)

(** [set] and [setStream] release the lock they took, once, whatever the
    outcome. *)
Lemma set_releases_once sv key data e w :
  Number.lt e (time sv (ticks w)) = false ->
  exists middle,
    trace (snd (Service.set sv key data (Some e) w)) =
      trace w ++ [LockTake key] ++ middle ++ [LockRelease key] /\
    (LockTake key ∉ middle) /\ (LockRelease key ∉ middle).
Proof.
  intros Hlt. rewrite service_set_run by exact Hlt.
  destruct (NodeFs.open_for_write _ _ _); cbn [snd trace].
  - eexists [_]. split; [reflexivity |].
    split; intros H; apply list_elem_of_In in H; cbn in H; intuition discriminate.
  - eexists [_; _; _]. split; [reflexivity |].
    split; intros H; apply list_elem_of_In in H; cbn in H; intuition discriminate.
Qed.

(** C2, at the failing input. [setEOL] with a past eol on a bucket that
    exists takes the lock, removes the file and returns: what it did is the
    taking of the lock and the unlink, and no release.  (With an eol that is
    not past, it releases a lock that it has not taken.) *)
Theorem setEOL_delete_keeps_the_lock (sv : services) (key : string) (e : number)
    (w : world) (content : bytes) :
  Number.lt e (time sv (ticks w)) = true ->
  files (w_disk w) !! Service._keyToPath sv key = Some content ->
  Service.setEOL sv key (Some e) w =
    (inr tt,
     {| w_disk := with_files (delete (Service._keyToPath sv key)) (w_disk w);
        ticks := S (ticks w);
        trace := trace w ++ [LockTake key; FsUnlink (Service._keyToPath sv key)] |}).
Proof.
  intros Hlt Hf. rewrite service_setEOL_delete by exact Hlt. rewrite Hf. reflexivity.
Qed.

Lemma setEOL_delete_keeps_the_lock_witness :
  Service.setEOL sv0 "plop" (Some (Number.of_Z 0)) world1 =
    (inr tt,
     {| w_disk := with_files (delete plop_path) (w_disk world1);
        ticks := S (ticks world1);
        trace := trace world1 ++ [LockTake "plop"; FsUnlink plop_path] |}).
Proof.
  apply (setEOL_delete_keeps_the_lock sv0 "plop" (Number.of_Z 0) world1
           (bucket (Some {| eol := Some (Number.of_Z (T0 + 1)) |}) payload0)).
  - vm_compute. reflexivity.
  - vm_compute. reflexivity.
Defined.

(** ** C3: the temporary file *)

(** Whatever makes the write of the temporary file fail comes back as
    [E_ACCESS] with the key, the lock released and nothing published. *)
Lemma set_temp_failure sv key data e w err :
  Number.lt e (time sv (ticks w)) = false ->
  NodeFs.open_for_write (Service._keyToPath sv key +:+ ".tmp") "w" (w_disk w) = Some err ->
  Service.set sv key data (Some e) w =
    (inl (YError.cast err "E_ACCESS" [VStr key]),
     {| w_disk := w_disk w; ticks := S (ticks w);
        trace := trace w ++
          [LockTake key;
           FsWriteFile (Service._keyToPath sv key +:+ ".tmp")
             (bucket (Some {| eol := Some e |}) data) wx;
           LockRelease key] |}).
Proof. intros Hlt Ho. rewrite service_set_run by exact Hlt. rewrite Ho. reflexivity. Qed.

(** C3, at the failing input. With a temporary file already there, [set]
    does not fail: [fs.writeFile] is given [flags: 'wx'], reads [flag], opens
    with ['w'] and writes over the file; the bucket is published and the
    caller is told of a success, in both implementations. *)
Theorem set_overwrites_temp (sv : services) (key : string) (data : bytes) (e : number)
    (w : world) (stale : bytes) :
  Number.lt e (time sv (ticks w)) = false ->
  files (w_disk w) !! (Service._keyToPath sv key +:+ ".tmp") = Some stale ->
  Service._keyToPath sv key +:+ ".tmp" ∉ readonly (w_disk w) ->
  let dest := Service._keyToPath sv key in
  let content := bucket (Some {| eol := Some e |}) data in
  Service.set sv key data (Some e) w =
    (inr tt,
     {| w_disk := published (dest +:+ ".tmp") dest content (w_disk w);
        ticks := S (ticks w);
        trace := trace w ++
          [LockTake key; FsWriteFile (dest +:+ ".tmp") content wx; FsUnlink dest;
           FsRename (dest +:+ ".tmp") dest; LockRelease key] |}) /\
  Legacy.set sv key data (Some e) w =
    (inr tt,
     {| w_disk := published (dest +:+ ".tmp") dest content (w_disk w);
        ticks := S (ticks w);
        trace := trace w ++
          [FsWriteFile (dest +:+ ".tmp") content wx; FsUnlink dest;
           FsRename (dest +:+ ".tmp") dest; Callback (inr CbNull)] |}).
Proof.
  intros Hlt _ Hro dest content. subst dest content. split.
  - rewrite service_set_run by exact Hlt.
    rewrite (open_w_allowed _ _ Hro). reflexivity.
  - rewrite legacy_set_run by exact Hlt.
    rewrite (open_w_allowed _ _ Hro). reflexivity.
Qed.

Lemma set_overwrites_temp_witness :
  fst (Service.set sv0 "plop" payload0 (Some (Number.of_Z T0)) world_stale) = inr tt.
Proof.
  destruct (set_overwrites_temp sv0 "plop" payload0 (Number.of_Z T0) world_stale payload0)
    as [H _].
  - vm_compute. reflexivity.
  - vm_compute. reflexivity.
  - vm_compute. discriminate.
  - rewrite H. reflexivity.
Defined.

(** [setStream] hands the same options to [fs.createWriteStream], which
    reads [flags]: a temporary file that is there is refused. *)
Lemma setStream_refuses_temp sv key cs e w stale :
  Number.lt (eol_or_max (Some e)) (time sv (ticks w)) = false ->
  files (w_disk w) !! (Service._keyToPath sv key +:+ ".tmp") = Some stale ->
  Service._keyToPath sv key +:+ ".tmp" ∉ readonly (w_disk w) ->
  fst (Service.setStream sv key cs (Some e) w) =
    inl (YError.wrap (SysErr "EEXIST") "E_ACCESS" [VStr key]).
Proof.
  intros Hlt Hf Hro. rewrite service_setStream_run by exact Hlt.
  unfold NodeFs.open_for_write.
  destruct (decide (_ ∈ _)); [contradiction |].
  destruct (decide (_ ∧ _)) as [_ | Hn]; [reflexivity |].
  exfalso. apply Hn. split; [reflexivity | rewrite Hf; eauto].
Qed.

(** ** C4: writes that are past their end of life *)




(** ** C8: the update of the end of life *)

Lemma header_rewritten_file path hd d content :
  files d !! path = Some content ->
  files (header_rewritten path hd d) !! path =
    Some (overwrite 0 (firstn (Nat.min HEADER_SIZE (wlimit d)) hd) content).
Proof. intros H. cbn [header_rewritten files]. rewrite lookup_alter_eq, H. reflexivity. Qed.

Lemma header_rewritten_others path hd d p :
  p <> path -> files (header_rewritten path hd d) !! p = files d !! p.
Proof. intros H. cbn [header_rewritten files]. apply lookup_alter_ne. congruence. Qed.

Lemma encodeHeader_or_zero (e : number) :
  _encodeHeader (Some {| eol := Some (eol_or_zero (Some e)) |}) =
  _encodeHeader (Some {| eol := Some e |}).
Proof.
  rewrite !encodeHeader_layout. cbn [eol_of eol eol_or_zero].
  destruct (Number.truthy e) eqn:Et; rewrite ?Et; reflexivity.
Qed.

(** C8, at the failing input.  The update path of [setEOL], for an eol
    that the clock has not passed and a file that can be opened: [fs.open],
    one [fs.write] of [HEADER_SIZE] bytes of the header encoded for the eol,
    at position 0, and [fs.close]; the bytes from [HEADER_SIZE] on are as
    they were (and so are the other files), the first [n] are those of the
    new header, [n] being the number of bytes written; when there is no
    file the error of [fs.open] comes back as it is.  When [n] is not
    [HEADER_SIZE], the callback implementation hands [E_BAD_WRITE] of [n]
    to its callback and closes the file once.  The promise implementation
    calls [fs.close] twice, and what it returns is up to the thread pool:
    [E_BAD_WRITE] of [n] when the first call answers first, else the
    [EBADF] of the second call, or a success, when the second call was the
    one to close the descriptor. *)
Theorem setEOL_update_frame (sv : services) (key : string) (e : number) (w : world) :
  Number.is_nan e = false ->
  Number.lt e (time sv (ticks w)) = false ->
  Service._keyToPath sv key ∉ readonly (w_disk w) ->
  let path := Service._keyToPath sv key in
  let hd := _encodeHeader (Some {| eol := Some e |}) in
  let n := Nat.min HEADER_SIZE (wlimit (w_disk w)) in
  let fd := next_fd (w_disk w) in
  let bad_write := YError.new "E_BAD_WRITE" [VNum (num_of_nat n)] in
  let after := Service.setEOL sv key (Some e) w in
  let legacy := Legacy.setEOL sv key (Some e) w in
  match files (w_disk w) !! path with
  | Some content =>
      fst after =
        (if (n =? HEADER_SIZE)%nat then inr tt
         else if answers_last_first (race (w_disk w)) then
           if closes_last_first (race (w_disk w)) then inr tt
           else inl (SysErr "EBADF")
         else inl bad_write) /\
      trace (snd after) =
        trace w ++
        [FsOpen path "r+"; FsWrite fd hd 0 HEADER_SIZE 0] ++
        closing_events key fd n (race (w_disk w)) /\
      (exists content',
         files (w_disk (snd after)) !! path = Some content' /\
         skipn HEADER_SIZE content' = skipn HEADER_SIZE content /\
         firstn n content' = firstn n hd /\
         (n = HEADER_SIZE -> content' = hd ++ skipn HEADER_SIZE content) /\
         ((n < HEADER_SIZE)%nat -> (n < length content)%nat ->
          skipn n content' = skipn n content)) /\
      (forall p, p <> path -> files (w_disk (snd after)) !! p = files (w_disk w) !! p) /\
      w_disk (snd legacy) = w_disk (snd after) /\
      trace (snd legacy) =
        trace w ++
        [FsOpen path "r+"; FsWrite fd hd 0 HEADER_SIZE 0; Callback (inr CbNull)] ++
        (if (n =? HEADER_SIZE)%nat then [FsClose fd; Callback (inr CbNull)]
         else [Callback (inl bad_write); FsClose fd])
  | None =>
      after =
        (inl (SysErr "ENOENT"),
         {| w_disk := w_disk w; ticks := S (ticks w);
            trace := trace w ++ [FsOpen path "r+"; LockRelease key] |}) /\
      legacy =
        (inr tt,
         {| w_disk := w_disk w; ticks := S (ticks w);
            trace := trace w ++ [FsOpen path "r+"; Callback (inl (SysErr "ENOENT"))] |})
  end.
Proof.
  intros Hnan Hlt Hro path hd n fd bad_write after legacy.
  assert (Hhd : length hd = HEADER_SIZE) by apply length_encodeHeader.
  assert (Hlt' : Number.lt (eol_or_zero (Some e)) (time sv (ticks w)) = false).
  { cbn [eol_or_zero]. rewrite NumberFacts.lt_or_zero by exact Hnan. exact Hlt. }
  destruct (files (w_disk w) !! path) as [content |] eqn:Hf.
  - subst after. rewrite (service_setEOL_update sv key e w content Hlt Hf Hro).
    cbn [fst snd w_disk trace]. fold path. fold hd. fold n.
    split; [reflexivity |].
    split; [reflexivity |].
    split.
    { eexists. split; [apply header_rewritten_file; exact Hf |]. fold n.
      split; [| split; [| split]].
      - apply overwrite_payload. rewrite length_take. lia.
      - rewrite overwrite_header. apply take_app_length'.
        rewrite length_take. lia.
      - intros Hn. rewrite Hn.
        rewrite overwrite_header. rewrite firstn_all2 by lia.
        rewrite Hhd. reflexivity.
      - intros Hn Hc. rewrite overwrite_header.
        assert (Hl : length (firstn n hd) = n) by (rewrite length_take; lia).
        rewrite Hl. apply drop_app_length'. symmetry. exact Hl. }
    split.
    { intros p Hp. apply header_rewritten_others. exact Hp. }
    subst legacy.
    rewrite (legacy_setEOL_update sv key (Some e) w content Hlt' Hf Hro).
    cbn [snd w_disk trace]. rewrite encodeHeader_or_zero.
    split; reflexivity.
  - subst after legacy.
    rewrite (service_setEOL_missing sv key e w Hlt Hf).
    rewrite (legacy_setEOL_missing sv key (Some e) w Hlt' Hf).
    split; reflexivity.
Qed.

Lemma setEOL_update_frame_witness :
  fst (Service.setEOL sv0 "plop" (Some (Number.of_Z (T0 + 5))) world_race) = inr tt /\
  exists content',
    files (w_disk (snd (Service.setEOL sv0 "plop" (Some (Number.of_Z (T0 + 5))) world_race)))
      !! plop_path = Some content' /\
    skipn 8 content' =
      skipn 8 (bucket (Some {| eol := Some (Number.of_Z (T0 + 1)) |}) payload0).
Proof.
  assert (H1 : Number.is_nan (Number.of_Z (T0 + 5)) = false) by (vm_compute; reflexivity).
  assert (H2 : Number.lt (Number.of_Z (T0 + 5)) (time sv0 (ticks world_race)) = false)
    by (vm_compute; reflexivity).
  assert (H3 : Service._keyToPath sv0 "plop" ∉ readonly (w_disk world_race))
    by (vm_compute; discriminate).
  pose proof (setEOL_update_frame sv0 "plop" (Number.of_Z (T0 + 5)) world_race H1 H2 H3)
    as H.
  cbv zeta in H.
  change (files (w_disk world_race) !! Service._keyToPath sv0 "plop")
    with (Some (bucket (Some {| eol := Some (Number.of_Z (T0 + 1)) |}) payload0)) in H.
  destruct H as (Hr & _ & (c & Hc & _ & _ & _ & Hp) & _).
  split; [exact Hr |].
  exists c. split; [exact Hc |].
  apply Hp; vm_compute; lia.
Defined.

(** ** C9: the eol that is left out *)




(** ** C10: [setStream] with an eol of 0 *)

Lemma open_for_write_sys path fl d err :
  NodeFs.open_for_write path fl d = Some err ->
  err = SysErr "EACCES" \/ err = SysErr "EEXIST".
Proof.
  unfold NodeFs.open_for_write.
  destruct (decide _); [intros [= <-]; left; reflexivity |].
  destruct (decide _); [intros [= <-]; right; reflexivity | discriminate].
Qed.

(** C10, as stated, fails where the clock is not a time of our days: with a
    clock that stands at the epoch, the bucket that [setStream] stored with
    an eol of 0 is served, 0 not being before 0; and with a clock that is
    past the sentinel [2^64], an eol of 0 does fail the check, with
    [E_END_OF_LIFE] of the sentinel. *)
Lemma setStream_zero_eol_depends_on_clock :
  fst (Service.setStream sv_epoch "plop" [payload0] (Some Number.zero) world0) = inr tt /\
  fst (Service.get sv_epoch "plop"
         (snd (Service.setStream sv_epoch "plop" [payload0] (Some Number.zero) world0))) =
    inr payload0 /\
  fst (Service.setStream sv_far "plop" [payload0] (Some Number.zero) world0) =
    inl (YError.new "E_END_OF_LIFE" [VNum Number.max_sentinel]).
Proof. vm_compute. repeat split; reflexivity. Qed.

(** C10, amended.  [setStream] called with an eol of 0, at a clock that is
    not past the sentinel [2^64], passes the check of the eol, whatever the
    disk: it takes the lock, and what it returns, or hands to its callback,
    is not [E_END_OF_LIFE].  Where the temporary file can be created it
    succeeds, the bucket it publishes is the header encoded for 0 followed
    by the chunks, and [get] and [getStream], on that disk and at any
    reading of the clock that is past 0, fail with [E_END_OF_LIFE] of 0.
    Both implementations. *)
Theorem setStream_zero_eol_trap (sv : services) (key : string) (cs : list bytes)
    (s : bool) (w : world) :
  Number.lt Number.max_sentinel (time sv (ticks w)) = false ->
  let after := Service.setStream sv key cs (Some (S754_zero s)) w in
  let legacy := Legacy.setStream sv key cs (Some (S754_zero s)) w in
  (exists rest, trace (snd after) = trace w ++ LockTake key :: rest) /\
  (forall p, fst after <> inl (YError.new "E_END_OF_LIFE" p)) /\
  (forall p, ~ called_back (snd legacy) (inl (YError.new "E_END_OF_LIFE" p))) /\
  (Service._keyToPath sv key +:+ ".tmp" ∉ readonly (w_disk w) ->
   files (w_disk w) !! (Service._keyToPath sv key +:+ ".tmp") = None ->
   fst after = inr tt /\
   called_back (snd legacy) (inr CbNull) /\
   files (w_disk (snd after)) !! Service._keyToPath sv key =
     Some (_encodeHeader (Some {| eol := Some Number.zero |}) ++ concat cs) /\
   w_disk (snd legacy) = w_disk (snd after) /\
   refused_after_zero sv key (snd after) /\
   refused_after_zero sv key (snd legacy)).
Proof.
  intros Hmax after legacy. subst after legacy.
  assert (Hmax' : Number.lt (eol_or_max (Some (S754_zero s))) (time sv (ticks w)) = false)
    by exact Hmax.
  assert (Hd : Number.is_double
                 (eol_or_zero (eol_of (Some {| eol := Some (S754_zero s) |}))) = true)
    by reflexivity.
  split; [| split; [| split]].
  - rewrite service_setStream_run by exact Hmax'.
    destruct (NodeFs.open_for_write _ _ _); cbn [snd trace]; eexists; reflexivity.
  - intros p. rewrite service_setStream_run by exact Hmax'.
    destruct (NodeFs.open_for_write _ _ _) as [err |] eqn:Eo; [| discriminate].
    destruct (open_for_write_sys _ _ _ _ Eo) as [-> | ->]; discriminate.
  - intros p. rewrite legacy_setStream_run, Hmax'. unfold called_back.
    destruct (NodeFs.open_for_write _ _ _); cbn [snd trace].
    + rewrite last_app. cbn. discriminate.
    + rewrite !last_app. cbn. discriminate.
  - intros Hro Hf. pose proof (open_wx_allowed _ _ Hro Hf) as Hwx.
    rewrite service_setStream_run by exact Hmax'.
    rewrite legacy_setStream_run, Hmax', Hwx. cbn [fst snd w_disk trace].
    assert (Hrefused : forall w1 : world,
              w_disk w1 =
                published (Service._keyToPath sv key +:+ ".tmp") (Service._keyToPath sv key)
                  (bucket (Some {| eol := Some (S754_zero s) |}) (concat cs)) (w_disk w) ->
              refused_after_zero sv key w1).
    { intros w1 Hw1 w2 Hdisk Hnow expired. subst expired.
      assert (Hfile : files (w_disk w2) !! Service._keyToPath sv key =
                Some (bucket (Some {| eol := Some (S754_zero s) |}) (concat cs)))
        by (rewrite Hdisk, Hw1; apply lookup_insert_eq).
      split; [| split; [| split]].
      - rewrite (service_get_bucket sv key _ _ w2 Hd Hfile).
        cbn [eol_of eol eol_or_zero Number.truthy]. rewrite Hnow. reflexivity.
      - destruct (service_getStream_bucket sv key _ _ w2 Hd Hfile) as [cs' [_ Hrun]].
        rewrite Hrun. cbn [eol_of eol eol_or_zero Number.truthy]. rewrite Hnow.
        reflexivity.
      - rewrite (legacy_get_bucket sv key _ _ w2 Hd Hfile).
        cbn [eol_of eol eol_or_zero Number.truthy]. rewrite Hnow.
        unfold called_back. cbn [snd trace]. rewrite last_app. reflexivity.
      - destruct (legacy_getStream_bucket sv key _ _ w2 Hd Hfile) as [cs' [_ Hrun]].
        rewrite Hrun. cbn [eol_of eol eol_or_zero Number.truthy]. rewrite Hnow.
        unfold called_back. cbn [snd trace]. rewrite last_app. reflexivity. }
    split; [reflexivity |].
    split; [unfold called_back; cbn [trace]; rewrite !last_app; reflexivity |].
    split; [apply lookup_insert_eq |].
    split; [reflexivity |].
    split; apply Hrefused; reflexivity.
Qed.

Lemma setStream_zero_eol_trap_witness :
  fst (Service.setStream sv0 "plop" [payload0] (Some Number.zero) world0) = inr tt /\
  fst (Service.get sv0 "plop" world_zero) =
    inl (YError.new "E_END_OF_LIFE" [VNum Number.zero]) /\
  fst (Service.getStream sv0 "plop"
         (snd (Legacy.setStream sv0 "plop" [payload0] (Some Number.zero) world0))) =
    inl (YError.new "E_END_OF_LIFE" [VNum Number.zero]).
Proof.
  destruct (setStream_zero_eol_trap sv0 "plop" [payload0] false world0)
    as (_ & _ & _ & H).
  - vm_compute. reflexivity.
  - destruct H as (Hok & _ & _ & _ & Hs & Hl).
    + vm_compute. discriminate.
    + vm_compute. reflexivity.
    + split; [exact Hok |]. split.
      * apply (Hs world_zero); [reflexivity | vm_compute; reflexivity].
      * apply (Hl (snd (Legacy.setStream sv0 "plop" [payload0] (Some Number.zero) world0)));
          [reflexivity | vm_compute; reflexivity].
Defined.

(** * Further properties of the cache *)

(** ** The paths of a key *)

Lemma last_char_cons (a : ascii) (u : string) :
  u <> EmptyString -> last_char (String a u) = last_char u.
Proof. destruct u; [contradiction | reflexivity]. Qed.

Lemma last_char_app (s t : string) :
  t <> EmptyString -> last_char (s +:+ t) = last_char t.
Proof.
  intros Ht. induction s as [| a s IH]; [reflexivity |].
  change (String a s +:+ t) with (String a (s +:+ t)).
  rewrite last_char_cons; [exact IH |].
  destruct s; [exact Ht | discriminate].
Qed.

Lemma append_nonempty (s t : string) : t <> EmptyString -> s +:+ t <> EmptyString.
Proof. intros Ht. destruct s; [exact Ht | discriminate]. Qed.

Lemma bucket_path_last_char (sv : services) (key : string) :
  last_char (Service._keyToPath sv key) = Some "t"%char.
Proof.
  unfold Service._keyToPath, path_join.
  rewrite !last_char_app; try reflexivity; repeat apply append_nonempty; discriminate.
Qed.

Lemma tmp_is_no_bucket (sv : services) (key key' : string) :
  Service._keyToPath sv key +:+ ".tmp" <> Service._keyToPath sv key'.
Proof.
  intros H. apply (f_equal last_char) in H.
  rewrite last_char_app, bucket_path_last_char in H by discriminate.
  discriminate H.
Qed.

(** ** What a write operation can do to the disk *)

Lemma service_setEOL_denied sv key e w content :
  Number.lt e (time sv (ticks w)) = false ->
  files (w_disk w) !! Service._keyToPath sv key = Some content ->
  Service._keyToPath sv key ∈ readonly (w_disk w) ->
  Service.setEOL sv key (Some e) w =
    (inl (SysErr "EACCES"),
     {| w_disk := w_disk w; ticks := S (ticks w);
        trace := trace w ++ [FsOpen (Service._keyToPath sv key) "r+"; LockRelease key] |}).
Proof.
  intros Hlt Hf Hro.
  unfold Service.setEOL, Service.default_eol, Service.rewrite_header.
  run_io. rewrite Hlt.
  run_io. unfold NodeFs.open. rewrite Hf.
  destruct (decide _) as [_ | Hn]; [| contradiction].
  run_io. list_norm. reflexivity.
Qed.

Lemma legacy_setEOL_denied sv key e w content :
  Number.lt (eol_or_zero e) (time sv (ticks w)) = false ->
  files (w_disk w) !! Service._keyToPath sv key = Some content ->
  Service._keyToPath sv key ∈ readonly (w_disk w) ->
  Legacy.setEOL sv key e w =
    (inr tt,
     {| w_disk := w_disk w; ticks := S (ticks w);
        trace := trace w ++ [FsOpen (Service._keyToPath sv key) "r+";
                             Callback (inl (SysErr "EACCES"))] |}).
Proof.
  intros Hlt Hf Hro. unfold Legacy.setEOL. run_io. rewrite Hlt.
  run_io. change (Legacy._keyToPath sv key) with (Service._keyToPath sv key).
  unfold NodeFs.open. rewrite Hf.
  destruct (decide _) as [_ | Hn]; [| contradiction].
  run_io. list_norm. reflexivity.
Qed.

Lemma service_set_default sv key data w :
  Service.set sv key data None w =
  Service.set sv key data (Some (Number.add (time sv (ticks w)) (FS_CACHE_TTL sv))) (ticked w).
Proof. reflexivity. Qed.

Lemma service_setStream_default sv key cs w :
  Service.setStream sv key cs None w =
  Service.setStream sv key cs (Some (Number.add (time sv (ticks w)) (FS_CACHE_TTL sv)))
    (ticked w).
Proof. reflexivity. Qed.

Lemma service_setEOL_default sv key w :
  Service.setEOL sv key None w =
  Service.setEOL sv key (Some (Number.add (time sv (ticks w)) (FS_CACHE_TTL sv))) (ticked w).
Proof. reflexivity. Qed.

Lemma touches_refl tmp dest d : touches_only tmp dest d d.
Proof. repeat split. Qed.

Lemma touches_published tmp dest c d : touches_only tmp dest d (published tmp dest c d).
Proof.
  split; [| repeat split].
  intros p Hd Ht. cbn [published with_files files].
  rewrite lookup_insert_ne by congruence. apply lookup_delete_ne. congruence.
Qed.

Lemma touches_deleted tmp dest d : touches_only tmp dest d (with_files (delete dest) d).
Proof.
  split; [| repeat split].
  intros p Hd _. cbn [with_files files]. apply lookup_delete_ne. congruence.
Qed.

Lemma touches_rewritten tmp dest hd d : touches_only tmp dest d (header_rewritten dest hd d).
Proof.
  split; [| repeat split].
  intros p Hd _. apply header_rewritten_others. exact Hd.
Qed.

Lemma touches_created tmp dest o d :
  touches_only tmp dest d (snd (NodeFs.createWriteStream tmp o d)).
Proof.
  unfold NodeFs.createWriteStream.
  destruct (NodeFs.open_for_write _ _ _); cbn [snd]; [apply touches_refl |].
  split; [| repeat split].
  intros p _ Ht. cbn [with_files files]. apply lookup_insert_ne. congruence.
Qed.

(** The disk that a write operation leaves, whatever its arguments and its
    outcome, is the disk it found, or that disk after a publication, after
    the removal of the bucket, after a rewriting of its header, or after
    the creation of the temporary file. *)
Lemma write_cases (R : disk -> disk -> Prop) (sv : services) (op : write_op) (w : world) :
  let dest := Service._keyToPath sv (op_key op) in
  let tmp := dest +:+ ".tmp" in
  (forall d, R d d) ->
  (forall c d, R d (published tmp dest c d)) ->
  (forall d, R d (with_files (delete dest) d)) ->
  (forall hd d, R d (header_rewritten dest hd d)) ->
  (forall o d, R d (snd (NodeFs.createWriteStream tmp o d))) ->
  R (w_disk w) (w_disk (snd (run_write sv op w))).
Proof.
  intros dest tmp Hrefl Hpub Hdel Hrew Hcre. subst dest tmp.
  destruct op as [key data e | key cs e | key e | key data e | key cs e | key e];
    cbn [op_key run_write].
  - assert (H : forall e0 w0, R (w_disk w0)
                  (w_disk (snd (Service.set sv key data (Some e0) w0)))).
    { intros e0 w0. destruct (Number.lt e0 (time sv (ticks w0))) eqn:Hlt.
      - rewrite service_set_expired by exact Hlt. apply Hrefl.
      - rewrite service_set_run by exact Hlt.
        destruct (NodeFs.open_for_write _ _ _); cbn [snd w_disk];
          [apply Hrefl | apply Hpub]. }
    destruct e as [e |]; [apply H |]. rewrite service_set_default. apply (H _ (ticked w)).
  - assert (H : forall e0 w0, R (w_disk w0)
                  (w_disk (snd (Service.setStream sv key cs (Some e0) w0)))).
    { intros e0 w0.
      destruct (Number.lt (eol_or_max (Some e0)) (time sv (ticks w0))) eqn:Hlt.
      - rewrite service_setStream_expired by exact Hlt. apply Hrefl.
      - rewrite service_setStream_run by exact Hlt.
        destruct (NodeFs.open_for_write _ _ _); cbn [snd w_disk];
          [apply Hrefl | apply Hpub]. }
    destruct e as [e |]; [apply H |]. rewrite service_setStream_default.
    apply (H _ (ticked w)).
  - assert (H : forall e0 w0, R (w_disk w0)
                  (w_disk (snd (Service.setEOL sv key (Some e0) w0)))).
    { intros e0 w0. destruct (Number.lt e0 (time sv (ticks w0))) eqn:Hlt.
      - rewrite service_setEOL_delete by exact Hlt.
        destruct (files (w_disk w0) !! _); cbn [snd w_disk];
          [apply Hdel | apply Hrefl].
      - destruct (files (w_disk w0) !! Service._keyToPath sv key) as [c |] eqn:Hf.
        + destruct (decide (Service._keyToPath sv key ∈ readonly (w_disk w0))) as [Hro | Hro].
          * rewrite (service_setEOL_denied sv key e0 w0 c Hlt Hf Hro). apply Hrefl.
          * rewrite (service_setEOL_update sv key e0 w0 c Hlt Hf Hro).
            apply Hrew.
        + rewrite (service_setEOL_missing sv key e0 w0 Hlt Hf). apply Hrefl. }
    destruct e as [e |]; [apply H |]. rewrite service_setEOL_default.
    apply (H _ (ticked w)).
  - destruct (lt_eol e (time sv (ticks w))) eqn:Hlt.
    + destruct e as [e |]; [| discriminate Hlt].
      rewrite legacy_set_expired by exact Hlt. apply Hrefl.
    + rewrite legacy_set_run by exact Hlt.
      destruct (NodeFs.open_for_write _ _ _); cbn [snd w_disk];
        [apply Hrefl | apply Hpub].
  - rewrite legacy_setStream_run. cbn [snd].
    destruct (Number.lt _ _); [apply Hcre |].
    destruct (NodeFs.open_for_write _ _ _); cbn [w_disk];
      [apply Hrefl | apply Hpub].
  - destruct (Number.lt (eol_or_zero e) (time sv (ticks w))) eqn:Hlt.
    + rewrite legacy_setEOL_delete by exact Hlt. cbn [snd].
      destruct (files (w_disk w) !! _); cbn [w_disk];
        [apply Hdel | apply Hrefl].
    + destruct (files (w_disk w) !! Service._keyToPath sv key) as [c |] eqn:Hf.
      * destruct (decide (Service._keyToPath sv key ∈ readonly (w_disk w))) as [Hro | Hro].
        -- rewrite (legacy_setEOL_denied sv key e w c Hlt Hf Hro). apply Hrefl.
        -- rewrite (legacy_setEOL_update sv key e w c Hlt Hf Hro).
           apply Hrew.
      * rewrite (legacy_setEOL_missing sv key e w Hlt Hf). apply Hrefl.
Qed.


(** Every write operation, whatever its arguments and its outcome, leaves
    the files other than the bucket of its key and its temporary file as
    they were. *)
Lemma write_footprint (sv : services) (op : write_op) (w : world) :
  touches_only (Service._keyToPath sv (op_key op) +:+ ".tmp")
    (Service._keyToPath sv (op_key op))
    (w_disk w) (w_disk (snd (run_write sv op w))).
Proof.
  apply (write_cases (touches_only (Service._keyToPath sv (op_key op) +:+ ".tmp")
                        (Service._keyToPath sv (op_key op)))).
  - apply touches_refl.
  - apply touches_published.
  - apply touches_deleted.
  - apply touches_rewritten.
  - apply touches_created.
Qed.

(** ** What a reader looks at *)

Lemma fc_collect_window (n : nat) (cs : list bytes) :
  exists rest, fc_collect n [] cs = (firstn n (concat cs), rest) /\
               concat rest = skipn n (concat cs).
Proof.
  destruct (fc_collect n [] cs) as [first rest] eqn:E.
  destruct (fc_collect_spec n cs [] ltac:(simpl; lia) first rest E) as [H1 H2].
  cbn [app] in H1. exists rest. rewrite <- H1.
  destruct H2 as [Hlen | [Hlen ->]].
  - rewrite take_app_length' by (symmetry; exact Hlen).
    rewrite drop_app_length' by (symmetry; exact Hlen). split; reflexivity.
  - cbn [concat]. rewrite app_nil_r.
    rewrite firstn_all2 by lia. rewrite skipn_all2 by lia. split; reflexivity.
Qed.

(** The header decoded from the window of a file and from the whole file:
    the same header, or errors of the same code. *)
Lemma decodeHeader_window (b : bytes) :
  match _decodeHeader b, _decodeHeader (firstn HEADER_SIZE b) with
  | inr hdr, inr hdr' => hdr = hdr'
  | inl err, inl err' => YError.code_of err = YError.code_of err'
  | _, _ => False
  end.
Proof.
  rewrite !decodeHeader_cases.
  destruct (Nat.ltb_spec (length b) HEADER_SIZE) as [Hlen | Hlen].
  - rewrite firstn_all2 by lia.
    destruct (Nat.ltb_spec (length b) HEADER_SIZE); [reflexivity | lia].
  - assert (Hw : length (firstn HEADER_SIZE b) = HEADER_SIZE) by (rewrite length_take; lia).
    rewrite Hw. change (HEADER_SIZE <? HEADER_SIZE)%nat with false.
    destruct (window_prefix (firstn HEADER_SIZE b) b) as [H4 H8].
    { rewrite firstn_firstn. reflexivity. }
    pose proof (flag_differs_firstn b) as F1.
    pose proof (flag_differs_firstn (firstn HEADER_SIZE b)) as F2.
    rewrite <- H4 in F2.
    destruct (flag_differs magic 0 b) eqn:E1,
             (flag_differs magic 0 (firstn HEADER_SIZE b)) eqn:E2.
    + reflexivity.
    + assert (H : true = false) by (apply F1, F2; reflexivity). discriminate H.
    + assert (H : true = false) by (apply F2, F1; reflexivity). discriminate H.
    + rewrite H8. reflexivity.
Qed.

Section AnyRead.

Context (sv : services) (key : string) (w : world).

Let path := Service._keyToPath sv key.

(** Where a read leaves the world: [read] is the call made to [fs], [n] the
    number of clock readings taken. *)
Let read_world (n : nat) (call : event) (tail : list event) : world :=
  {| w_disk := w_disk w; ticks := n + ticks w; trace := trace w ++ call :: tail |}.

Lemma service_get_any :
  Service.get sv key w =
    match files (w_disk w) !! path with
    | None =>
        (inl (YError.wrap (SysErr "ENOENT") "E_NOENT" [VStr key]),
         read_world 0 (FsReadFile path) [])
    | Some data =>
        match _decodeHeader data with
        | inl err => (inl err, read_world 0 (FsReadFile path) [])
        | inr hdr =>
            (if lt_eol (eol hdr) (time sv (ticks w))
             then inl (YError.new "E_END_OF_LIFE" [value_of_eol (eol hdr)])
             else inr (skipn HEADER_SIZE data),
             read_world 1 (FsReadFile path) [])
        end
    end.
Proof.
  unfold Service.get. run_io. unfold NodeFs.readFile. fold path.
  destruct (files (w_disk w) !! path) as [data |]; [| reflexivity].
  destruct (_decodeHeader data) as [err | hdr]; [reflexivity |].
  run_io. destruct (lt_eol _ _); reflexivity.
Qed.

Lemma service_getStream_any :
  Service.getStream sv key w =
    match files (w_disk w) !! path with
    | None =>
        (inl (YError.wrap (SysErr "ENOENT") "E_NOENT" [VStr key]),
         read_world 0 (FsCreateReadStream path) [])
    | Some data =>
        let '(chunk, rest) :=
          fc_collect HEADER_SIZE [] (chunks_of (Pos.to_nat (hwm (w_disk w))) data) in
        match _decodeHeader chunk with
        | inl err => (inl err, read_world 0 (FsCreateReadStream path) [])
        | inr hdr =>
            (if lt_eol (eol hdr) (time sv (ticks w))
             then inl (YError.new "E_END_OF_LIFE" [value_of_eol (eol hdr)])
             else inr rest,
             read_world 1 (FsCreateReadStream path) [])
        end
    end.
Proof.
  unfold Service.getStream. run_io. unfold NodeFs.createReadStream. fold path.
  destruct (files (w_disk w) !! path) as [data |]; [| reflexivity].
  destruct (fc_collect _ _ _) as [chunk rest].
  destruct (_decodeHeader chunk) as [err | hdr]; [reflexivity |].
  run_io. destruct (lt_eol _ _); reflexivity.
Qed.

Lemma legacy_get_any :
  Legacy.get sv key w =
    (inr tt,
     match files (w_disk w) !! path with
     | None =>
         read_world 0 (FsReadFile path)
           [Callback (inl (YError.wrap (SysErr "ENOENT") "E_NOENT" [VStr key]))]
     | Some data =>
         match _decodeHeader data with
         | inl err => read_world 0 (FsReadFile path) [Callback (inl err)]
         | inr hdr =>
             read_world 1 (FsReadFile path)
               [Callback (if lt_eol (eol hdr) (time sv (ticks w))
                          then inl (YError.new "E_END_OF_LIFE" [value_of_eol (eol hdr)])
                          else inr (CbBuffer (skipn HEADER_SIZE data)))]
         end
     end).
Proof.
  unfold Legacy.get. run_io. unfold NodeFs.readFile.
  change (Legacy._keyToPath sv key) with path.
  change (Legacy._readHeader) with _decodeHeader.
  destruct (files (w_disk w) !! path) as [data |];
    [| run_io; list_norm; reflexivity].
  destruct (_decodeHeader data) as [err | hdr]; [run_io; list_norm; reflexivity |].
  run_io. destruct (lt_eol _ _); run_io; list_norm; reflexivity.
Qed.

Lemma legacy_getStream_any :
  Legacy.getStream sv key w =
    (inr tt,
     match files (w_disk w) !! path with
     | None =>
         read_world 0 (FsCreateReadStream path)
           [Callback (inl (YError.wrap (SysErr "ENOENT") "E_NOENT" [VStr key]))]
     | Some data =>
         let '(chunk, rest) :=
           fc_collect HEADER_SIZE [] (chunks_of (Pos.to_nat (hwm (w_disk w))) data) in
         match _decodeHeader chunk with
         | inl err => read_world 0 (FsCreateReadStream path) [Callback (inl err)]
         | inr hdr =>
             read_world 1 (FsCreateReadStream path)
               [Callback (if lt_eol (eol hdr) (time sv (ticks w))
                          then inl (YError.new "E_END_OF_LIFE" [value_of_eol (eol hdr)])
                          else inr (CbStream rest))]
         end
     end).
Proof.
  unfold Legacy.getStream. run_io. unfold NodeFs.createReadStream.
  change (Legacy._keyToPath sv key) with path.
  change (Legacy._readHeader) with _decodeHeader.
  destruct (files (w_disk w) !! path) as [data |];
    [| run_io; list_norm; reflexivity].
  destruct (fc_collect _ _ _) as [chunk rest].
  destruct (_decodeHeader chunk) as [err | hdr]; [run_io; list_norm; reflexivity |].
  run_io. destruct (lt_eol _ _); run_io; list_norm; reflexivity.
Qed.

End AnyRead.

Lemma callbacks_app (l l' : list event) :
  callbacks (l ++ l') = callbacks l ++ callbacks l'.
Proof.
  induction l as [| ev l IH]; [reflexivity |].
  destruct ev; cbn [app callbacks]; rewrite IH; reflexivity.
Qed.

Lemma lock_events_app (l l' : list event) :
  lock_events (l ++ l') = lock_events l ++ lock_events l'.
Proof.
  induction l as [| ev l IH]; [reflexivity |].
  destruct ev; cbn [app lock_events]; rewrite IH; reflexivity.
Qed.

(** X1. Whatever the disk holds, [get] and [getStream] of the promise
    implementation agree on a key: both fail, with errors of the same code,
    or both succeed, and the chunks of the stream make up the buffer that
    [get] returns. *)
Theorem readers_agree (sv : services) (key : string) (w : world) :
  match fst (Service.get sv key w), fst (Service.getStream sv key w) with
  | inr data, inr chunks => concat chunks = data
  | inl err, inl err' => YError.code_of err = YError.code_of err'
  | _, _ => False
  end.
Proof.
  rewrite service_get_any, service_getStream_any.
  destruct (files (w_disk w) !! Service._keyToPath sv key) as [data |];
    [| reflexivity].
  destruct (fc_collect_window HEADER_SIZE
              (chunks_of (Pos.to_nat (hwm (w_disk w))) data)) as (rest & E & Hrest).
  rewrite concat_chunks_of in E, Hrest. rewrite E.
  pose proof (decodeHeader_window data) as Hw.
  destruct (_decodeHeader data) as [err | hdr],
           (_decodeHeader (firstn HEADER_SIZE data)) as [err' | hdr'];
    try contradiction; cbn [fst]; [exact Hw |].
  subst hdr'. destruct (lt_eol _ _); [reflexivity | exact Hrest].
Qed.

(** X2. The callback implementation reads as the promise implementation
    does: [get] and [getStream] leave the world that the promise version
    leaves, and then call back once, with the error it rejects with or with
    the data it resolves to. *)
Theorem legacy_readers_report (sv : services) (key : string) (w : world) :
  Legacy.get sv key w = (inr tt, reported CbBuffer (Service.get sv key w)) /\
  Legacy.getStream sv key w = (inr tt, reported CbStream (Service.getStream sv key w)).
Proof.
  rewrite legacy_get_any, legacy_getStream_any, service_get_any, service_getStream_any.
  unfold reported.
  destruct (files (w_disk w) !! Service._keyToPath sv key) as [data |].
  - split.
    + destruct (_decodeHeader data) as [err | hdr]; cbn [fst snd w_disk ticks trace];
        list_norm; [reflexivity |].
      destruct (lt_eol _ _); reflexivity.
    + destruct (fc_collect _ _ _) as [chunk rest].
      destruct (_decodeHeader chunk) as [err | hdr]; cbn [fst snd w_disk ticks trace];
        list_norm; [reflexivity |].
      destruct (lt_eol _ _); reflexivity.
  - cbn [fst snd w_disk ticks trace]. list_norm. split; reflexivity.
Qed.

(** X3. Reading never writes: whatever the key and the disk, each of the
    four readers leaves the disk as it found it, and neither takes nor
    releases a lock. *)
Theorem readers_are_read_only (sv : services) (key : string) (w : world) :
  read_only (Service.get sv key) w /\
  read_only (Service.getStream sv key) w /\
  read_only (Legacy.get sv key) w /\
  read_only (Legacy.getStream sv key) w.
Proof.
  unfold read_only.
  rewrite legacy_get_any, legacy_getStream_any, service_get_any, service_getStream_any.
  destruct (files (w_disk w) !! Service._keyToPath sv key) as [data |].
  - destruct (_decodeHeader data) as [err | hdr];
      destruct (fc_collect _ _ _) as [chunk rest];
      destruct (_decodeHeader chunk) as [err' | hdr'];
      cbn [fst snd w_disk ticks trace]; rewrite !lock_events_app;
      cbn [lock_events]; rewrite !app_nil_r; repeat split; reflexivity.
  - cbn [fst snd w_disk ticks trace]. rewrite !lock_events_app.
    cbn [lock_events]. rewrite !app_nil_r. repeat split; reflexivity.
Qed.


(** ** Keys do not interfere *)

(** What [get] and [getStream] return is read off the file of the key, the
    chunk size of the disk and the clock. *)
Lemma readers_frame (sv : services) (key : string) (w w' : world) :
  files (w_disk w') !! Service._keyToPath sv key =
    files (w_disk w) !! Service._keyToPath sv key ->
  hwm (w_disk w') = hwm (w_disk w) ->
  time sv (ticks w') = time sv (ticks w) ->
  fst (Service.get sv key w') = fst (Service.get sv key w) /\
  fst (Service.getStream sv key w') = fst (Service.getStream sv key w).
Proof.
  intros Hf Hh Ht. rewrite !service_get_any, !service_getStream_any, Hf, Hh, Ht.
  destruct (files (w_disk w) !! Service._keyToPath sv key) as [data |];
    [| split; reflexivity].
  split.
  - destruct (_decodeHeader data); [reflexivity |].
    destruct (lt_eol _ _); reflexivity.
  - destruct (fc_collect _ _ _) as [chunk rest].
    destruct (_decodeHeader chunk); [reflexivity |].
    destruct (lt_eol _ _); reflexivity.
Qed.

(** X5. The footprint of a write.  Each of the six operations that write
    ([set], [setStream] and [setEOL] of both implementations), whatever its
    arguments and whether it succeeds or fails, changes at most two files:
    the bucket of its key and the temporary file beside it.  Every other
    file, the permissions and the limits of the disk are as they were. *)
Theorem write_touches_its_files (sv : services) (op : write_op) (w : world) :
  touches_only (Service._keyToPath sv (op_key op) +:+ ".tmp")
    (Service._keyToPath sv (op_key op))
    (w_disk w) (w_disk (snd (run_write sv op w))).
Proof.
  apply (write_cases (touches_only (Service._keyToPath sv (op_key op) +:+ ".tmp")
                        (Service._keyToPath sv (op_key op)))).
  - intros d. apply touches_refl.
  - intros c d. apply touches_published.
  - intros d. apply touches_deleted.
  - intros hd d. apply touches_rewritten.
  - intros o d. apply touches_created.
Qed.

(** X6. Keys are independent.  When two keys have different paths, no write
    under the one, successful or not, changes what [get] and [getStream]
    return for the other, at any reading of the clock: the temporary file of
    a key is never the bucket of another. *)
Theorem writes_keep_other_keys (sv : services) (op : write_op) (key : string)
    (w : world) (t : nat) :
  Service._keyToPath sv key <> Service._keyToPath sv (op_key op) ->
  let d' := w_disk (snd (run_write sv op w)) in
  fst (Service.get sv key (world_at d' t)) =
    fst (Service.get sv key (world_at (w_disk w) t)) /\
  fst (Service.getStream sv key (world_at d' t)) =
    fst (Service.getStream sv key (world_at (w_disk w) t)).
Proof.
  intros Hne d'.
  destruct (write_footprint sv op w) as (Hf & _ & _ & Hh).
  apply readers_frame; cbn [world_at w_disk ticks].
  - apply Hf; [exact Hne |].
    intros H. symmetry in H. exact (tmp_is_no_bucket sv (op_key op) key H).
  - exact Hh.
  - reflexivity.
Qed.

Lemma writes_keep_other_keys_witness :
  fst (Service.get sv0 "plop"
         (world_at (w_disk (snd (run_write sv0
            (SetStreamOp "kikoolol" [payload0] (Some (Number.of_Z (T0 + 1)))) world1))) 0)) =
    inr payload0.
Proof.
  destruct (writes_keep_other_keys sv0
              (SetStreamOp "kikoolol" [payload0] (Some (Number.of_Z (T0 + 1))))
              "plop" world1 0) as [H _].
  - vm_compute. discriminate.
  - rewrite H. vm_compute. reflexivity.
Defined.

(** ** Publication *)

Lemma published_dest tmp dest c d : files (published tmp dest c d) !! dest = Some c.
Proof. cbn [published with_files files]. apply lookup_insert_eq. Qed.

Lemma published_tmp tmp dest c d :
  tmp <> dest -> files (published tmp dest c d) !! tmp = None.
Proof.
  intros Hne. cbn [published with_files files].
  rewrite lookup_insert_ne by (intros H; apply Hne; symmetry; exact H).
  apply lookup_delete_eq.
Qed.

Lemma set_some_settled sv key (data : bytes) (e : number) (w w0 : world) :
  w_disk w0 = w_disk w ->
  published_or_kept (Service._keyToPath sv key +:+ ".tmp") (Service._keyToPath sv key)
    (w_disk w)
    (fst (Service.set sv key data (Some e) w0))
    (bucket (Some {| eol := Some e |}) data)
    (w_disk (snd (Service.set sv key data (Some e) w0))).
Proof.
  intros Hw. destruct (Number.lt e (time sv (ticks w0))) eqn:Hlt.
  - rewrite service_set_expired by exact Hlt. intros _. cbn [snd ticked w_disk].
    rewrite Hw. reflexivity.
  - rewrite service_set_run by exact Hlt.
    destruct (NodeFs.open_for_write _ "w" (w_disk w0));
      cbn [fst snd w_disk published_or_kept].
    + intros _. rewrite Hw. reflexivity.
    + split; [apply published_dest | apply published_tmp, append_tmp_neq].
Qed.

Lemma setStream_some_settled sv key (cs : list bytes) (e : number) (w w0 : world) :
  w_disk w0 = w_disk w ->
  published_or_kept (Service._keyToPath sv key +:+ ".tmp") (Service._keyToPath sv key)
    (w_disk w)
    (fst (Service.setStream sv key cs (Some e) w0))
    (bucket (Some {| eol := Some e |}) (concat cs))
    (w_disk (snd (Service.setStream sv key cs (Some e) w0))).
Proof.
  intros Hw. destruct (Number.lt (eol_or_max (Some e)) (time sv (ticks w0))) eqn:Hlt.
  - rewrite service_setStream_expired by exact Hlt. intros _. cbn [snd ticked w_disk].
    rewrite Hw. reflexivity.
  - rewrite service_setStream_run by exact Hlt.
    destruct (NodeFs.open_for_write _ "wx" (w_disk w0));
      cbn [fst snd w_disk published_or_kept].
    + intros _. rewrite Hw. reflexivity.
    + split; [apply published_dest | apply published_tmp, append_tmp_neq].
Qed.

(** X7. What [set] and [setStream] of the promise implementation publish
    is whole, and a write that is refused keeps the bucket.  When the call
    resolves, the bucket of the key holds the header for the eol (the one
    given, or the clock plus the time to live) followed by the data, and no
    temporary file is left.  When it rejects with [E_END_OF_LIFE] or with
    [E_ACCESS], the bucket of the key is as it was: [set] gives these codes
    to what fails before it unlinks the old bucket, and [setStream], which
    unlinks nothing, to what fails up to and including the rename.  (The
    lock service is taken to succeed.) *)
Theorem set_publishes_whole_or_keeps (sv : services) (key : string) (data : bytes)
    (cs : list bytes) (e : option number) (w : world) :
  published_or_kept (Service._keyToPath sv key +:+ ".tmp") (Service._keyToPath sv key)
    (w_disk w)
    (fst (Service.set sv key data e w))
    (bucket (Some {| eol := Some (eol_given sv e w) |}) data)
    (w_disk (snd (Service.set sv key data e w))) /\
  published_or_kept (Service._keyToPath sv key +:+ ".tmp") (Service._keyToPath sv key)
    (w_disk w)
    (fst (Service.setStream sv key cs e w))
    (bucket (Some {| eol := Some (eol_given sv e w) |}) (concat cs))
    (w_disk (snd (Service.setStream sv key cs e w))).
Proof.
  destruct e as [e |]; cbn [eol_given].
  - split; [apply set_some_settled | apply setStream_some_settled]; reflexivity.
  - rewrite service_set_default, service_setStream_default.
    split; [apply set_some_settled | apply setStream_some_settled]; reflexivity.
Qed.

(** X8. The four writers are interchangeable on disk.  For an eol that is
    truthy and not before the clock, and with no temporary file in the way,
    [set] of a buffer and [setStream] of chunks that make up this buffer, of
    either implementation, leave one and the same disk; the two of the
    promise implementation return the same outcome. *)
Theorem writers_agree (sv : services) (key : string) (cs : list bytes) (e : number)
    (w : world) :
  Number.truthy e = true ->
  Number.lt e (time sv (ticks w)) = false ->
  files (w_disk w) !! (Service._keyToPath sv key +:+ ".tmp") = None ->
  let by_set := Service.set sv key (concat cs) (Some e) w in
  fst (Service.setStream sv key cs (Some e) w) = fst by_set /\
  w_disk (snd (Service.setStream sv key cs (Some e) w)) = w_disk (snd by_set) /\
  w_disk (snd (Legacy.set sv key (concat cs) (Some e) w)) = w_disk (snd by_set) /\
  w_disk (snd (Legacy.setStream sv key cs (Some e) w)) = w_disk (snd by_set).
Proof.
  intros Ht Hlt Hf by_set. subst by_set.
  assert (Hmax : Number.lt (eol_or_max (Some e)) (time sv (ticks w)) = false)
    by (cbn [eol_or_max]; rewrite Ht; exact Hlt).
  rewrite service_set_run by exact Hlt.
  rewrite service_setStream_run by exact Hmax.
  rewrite legacy_set_run by exact Hlt.
  rewrite legacy_setStream_run, Hmax.
  unfold NodeFs.open_for_write. rewrite Hf.
  destruct (decide (_ ∈ readonly (w_disk w))) as [Hro | Hro].
  - repeat split; reflexivity.
  - destruct (decide ("w" = "wx" ∧ _)) as [[H _] | _]; [discriminate H |].
    destruct (decide ("wx" = "wx" ∧ is_Some None)) as [[_ [x H]] | _]; [discriminate H |].
    repeat split; reflexivity.
Qed.

Lemma writers_agree_witness :
  w_disk (snd (Legacy.setStream sv0 "plop" [payload0] (Some (Number.of_Z (T0 + 1))) world0)) =
    w_disk world1.
Proof.
  destruct (writers_agree sv0 "plop" [payload0] (Number.of_Z (T0 + 1)) world0)
    as (_ & _ & _ & H).
  - vm_compute. reflexivity.
  - vm_compute. reflexivity.
  - vm_compute. reflexivity.
  - rewrite H. reflexivity.
Defined.

(** ** The lock *)

Lemma set_some_critical sv key data e w :
  in_critical_section key (trace w) (trace (snd (Service.set sv key data (Some e) w))).
Proof.
  destruct (Number.lt e (time sv (ticks w))) eqn:Hlt.
  - rewrite service_set_expired by exact Hlt. left. reflexivity.
  - rewrite service_set_run by exact Hlt. right.
    destruct (NodeFs.open_for_write _ _ _); cbn [snd trace].
    + eexists [_]. split; reflexivity.
    + eexists [_; _; _]. split; reflexivity.
Qed.

(** X9. [set] of the promise implementation works under the lock of the
    key.  Whatever the arguments and the disk, either the call is rejected
    before anything is done (the trace is as it was), or what it did starts
    with the taking of the lock and ends with its release, with every call
    to [fs] in between and no other lock event: the lock is released
    exactly once, when [fs.writeFile] fails as well as after the rename.
    (The lock service is taken to succeed.) *)
Theorem set_works_under_the_lock (sv : services) (key : string) (data : bytes)
    (e : option number) (w : world) :
  in_critical_section key (trace w) (trace (snd (Service.set sv key data e w))).
Proof.
  destruct e as [e |].
  - apply set_some_critical.
  - rewrite service_set_default.
    apply (set_some_critical sv key data _ (ticked w)).
Qed.

(** X10. [setEOL] of the promise implementation never pairs the lock when
    it changes the disk.  The lock events it adds are: with an eol that is
    not before the clock, one release and no taking, whether the file is
    missing, read-only or rewritten; with an eol before the clock, one
    taking, followed by a release only when there was no file to remove. *)
Theorem setEOL_lock_events (sv : services) (key : string) (e : number) (w : world) :
  lock_events (trace (snd (Service.setEOL sv key (Some e) w))) =
    lock_events (trace w) ++
    (if Number.lt e (time sv (ticks w)) then
       LockTake key ::
       match files (w_disk w) !! Service._keyToPath sv key with
       | Some _ => []
       | None => [LockRelease key]
       end
     else [LockRelease key]).
Proof.
  destruct (Number.lt e (time sv (ticks w))) eqn:Hlt.
  - rewrite service_setEOL_delete by exact Hlt.
    destruct (files (w_disk w) !! Service._keyToPath sv key);
      cbn [snd trace]; rewrite lock_events_app; reflexivity.
  - destruct (files (w_disk w) !! Service._keyToPath sv key) as [content |] eqn:Hf.
    + destruct (decide (Service._keyToPath sv key ∈ readonly (w_disk w))) as [Hro | Hro].
      * rewrite (service_setEOL_denied sv key e w content Hlt Hf Hro).
        cbn [snd trace]. rewrite lock_events_app. reflexivity.
      * rewrite (service_setEOL_update sv key e w content Hlt Hf Hro).
        cbn [snd trace]. rewrite lock_events_app.
        unfold closing_events, close_logs.
        destruct (_ =? _)%nat; [reflexivity |].
        destruct (answers_last_first _), (closes_last_first _); reflexivity.
    + rewrite (service_setEOL_missing sv key e w Hlt Hf).
      cbn [snd trace]. rewrite lock_events_app. reflexivity.
Qed.

(** ** [setEOL], then a read *)

(** X11. [setEOL] with an eol before the clock deletes: whatever the disk
    held, no file is at the path of the key afterwards, and on that disk
    [get] and [getStream] reject with [E_NOENT] and the key, at any reading
    of the clock.  So does [setEOL] of the callback implementation, where an
    eol that is left out counts as 0. *)
Theorem setEOL_in_the_past_deletes (sv : services) (key : string) (e : number)
    (e' : option number) (w w2 : world) :
  Number.lt e (time sv (ticks w)) = true ->
  Number.lt (eol_or_zero e') (time sv (ticks w)) = true ->
  w_disk w2 = w_disk (snd (Service.setEOL sv key (Some e) w)) ->
  let missing := YError.wrap (SysErr "ENOENT") "E_NOENT" [VStr key] in
  files (w_disk w2) !! Service._keyToPath sv key = None /\
  w_disk (snd (Legacy.setEOL sv key e' w)) = w_disk w2 /\
  fst (Service.get sv key w2) = inl missing /\
  fst (Service.getStream sv key w2) = inl missing.
Proof.
  intros Hlt Hlt' Hw missing.
  rewrite service_setEOL_delete in Hw by exact Hlt.
  rewrite legacy_setEOL_delete by exact Hlt'.
  assert (Hnone : files (w_disk w2) !! Service._keyToPath sv key = None).
  { rewrite Hw.
    destruct (files (w_disk w) !! Service._keyToPath sv key) eqn:Hf; cbn [snd w_disk].
    - cbn [with_files files]. apply lookup_delete_eq.
    - exact Hf. }
  split; [exact Hnone |]. split.
  - rewrite Hw. destruct (files (w_disk w) !! Service._keyToPath sv key); reflexivity.
  - rewrite service_get_any, service_getStream_any, Hnone. split; reflexivity.
Qed.

Lemma setEOL_in_the_past_deletes_witness :
  fst (Service.get sv0 "plop" (snd (Service.setEOL sv0 "plop" (Some (Number.of_Z 0)) world1))) =
    inl (YError.wrap (SysErr "ENOENT") "E_NOENT" [VStr "plop"]).
Proof.
  destruct (setEOL_in_the_past_deletes sv0 "plop" (Number.of_Z 0) None world1
              (snd (Service.setEOL sv0 "plop" (Some (Number.of_Z 0)) world1)))
    as (_ & _ & H & _).
  - vm_compute. reflexivity.
  - vm_compute. reflexivity.
  - reflexivity.
  - exact H.
Defined.

(** X12. [setEOL] with an eol that is not before the clock gives the
    bucket a new life.  On a file made of [HEADER_SIZE] bytes, whatever
    they are (the header of a bucket that has expired, or bytes that are no
    header), followed by a payload, on a disk that takes the header in one
    write, [setEOL] resolves, and each of the four readers then delivers the
    payload, at any reading of the clock that the new eol is not before. *)
Theorem setEOL_revives (sv : services) (key : string) (e : number)
    (old payload : bytes) (w w2 : world) :
  Number.is_double e = true ->
  Number.is_nan e = false ->
  Number.lt e (time sv (ticks w)) = false ->
  length old = HEADER_SIZE ->
  files (w_disk w) !! Service._keyToPath sv key = Some (old ++ payload) ->
  Service._keyToPath sv key ∉ readonly (w_disk w) ->
  (HEADER_SIZE <= wlimit (w_disk w))%nat ->
  w_disk w2 = w_disk (snd (Service.setEOL sv key (Some e) w)) ->
  Number.lt e (time sv (ticks w2)) = false ->
  fst (Service.setEOL sv key (Some e) w) = inr tt /\
  delivers sv key payload w2.
Proof.
  intros Hd Hnan Hlt Hold Hf Hro Hwl Hw Hlt2.
  rewrite (service_setEOL_update sv key e w _ Hlt Hf Hro) in Hw |- *.
  cbn [snd w_disk] in Hw.
  replace (Nat.min HEADER_SIZE (wlimit (w_disk w))) with HEADER_SIZE by lia.
  split; [reflexivity |].
  apply (bucket_delivers sv key payload e w2 Hd Hnan); [| exact Hlt2].
  rewrite Hw, (header_rewritten_file _ _ _ _ Hf).
  replace (Nat.min HEADER_SIZE (wlimit (w_disk w))) with HEADER_SIZE by lia.
  rewrite firstn_all2 by (rewrite length_encodeHeader; lia).
  rewrite overwrite_header, length_encodeHeader, <- Hold.
  rewrite drop_app_length. reflexivity.
Qed.

Lemma setEOL_revives_witness :
  delivers sv0 "plop" payload0
    (snd (Service.setEOL sv0 "plop" (Some (Number.of_Z (T0 + 5))) world1)).
Proof.
  destruct (setEOL_revives sv0 "plop" (Number.of_Z (T0 + 5))
              (_encodeHeader (Some {| eol := Some (Number.of_Z (T0 + 1)) |})) payload0
              world1
              (snd (Service.setEOL sv0 "plop" (Some (Number.of_Z (T0 + 5))) world1)))
    as [_ H].
  - vm_compute. reflexivity.
  - vm_compute. reflexivity.
  - vm_compute. reflexivity.
  - vm_compute. reflexivity.
  - vm_compute. reflexivity.
  - vm_compute. discriminate.
  - vm_compute. lia.
  - reflexivity.
  - vm_compute. reflexivity.
  - exact H.
Defined.

(** ** Keys that share a bucket *)

Lemma list_ascii_of_append (s t : string) :
  list_ascii_of_string (s +:+ t) = list_ascii_of_string s ++ list_ascii_of_string t.
Proof.
  induction s as [| a s IH]; [reflexivity |].
  change (String a s +:+ t) with (String a (s +:+ t)).
  cbn [list_ascii_of_string app]. rewrite IH. reflexivity.
Qed.

Lemma append_inv_tail (s t u : string) : s +:+ u = t +:+ u -> s = t.
Proof.
  intros H. apply (f_equal list_ascii_of_string) in H.
  rewrite !list_ascii_of_append in H. apply app_inv_tail in H.
  rewrite <- (string_of_list_ascii_of_string s), <- (string_of_list_ascii_of_string t).
  rewrite H. reflexivity.
Qed.

Lemma append_inv_head (s t u : string) : u +:+ s = u +:+ t -> s = t.
Proof.
  induction u as [| a u IH]; [auto |].
  change (String a u +:+ s) with (String a (u +:+ s)).
  change (String a u +:+ t) with (String a (u +:+ t)).
  intros [= H]. exact (IH H).
Qed.

(** X13. Two keys share a bucket exactly when [sanitize] gives them the
    same name: the path of a key depends on the key through its sanitized
    name only, and differs when the names differ.  Both implementations
    compute the same path. *)
Theorem keys_share_a_bucket_iff (sv : services) (key key' : string) :
  (Service._keyToPath sv key = Service._keyToPath sv key' <->
   sanitize sv key = sanitize sv key') /\
  Legacy._keyToPath sv key = Service._keyToPath sv key.
Proof.
  split; [| reflexivity].
  unfold Service._keyToPath, path_join. split.
  - intros H. apply append_inv_head in H. apply append_inv_head in H.
    apply append_inv_head in H. exact (append_inv_tail _ _ _ H).
  - intros ->. reflexivity.
Qed.

(** X14. What is stored under a key is served under every key of the same
    sanitized name.  A payload stored by one of the four writers under
    [key], with an eol later than the clock, is what each of the four
    readers delivers under [key'], while the eol is not before the clock. *)
Theorem colliding_keys_read_each_other (sv : services) (key key' : string)
    (P : bytes) (e : number) (w w1 w2 : world) :
  sanitize sv key = sanitize sv key' ->
  Number.is_double e = true ->
  Number.lt (time sv (ticks w)) e = true ->
  stored_by sv key P e w w1 ->
  w_disk w2 = w_disk w1 ->
  Number.lt e (time sv (ticks w2)) = false ->
  delivers sv key' P w2.
Proof.
  intros Hs Hd Hgt Hst Hw Hlt.
  apply (bucket_delivers sv key' P e w2 Hd (NumberFacts.lt_not_nan _ _ Hgt));
    [| exact Hlt].
  rewrite Hw. unfold Service._keyToPath. rewrite <- Hs.
  exact (stored_by_file sv key P e w w1 Hgt Hst).
Qed.

Lemma colliding_keys_read_each_other_witness :
  delivers sv_slashes "plop" payload0
    (snd (Service.set sv_slashes "p/lop" payload0 (Some (Number.of_Z (T0 + 1))) world0)).
Proof.
  apply (colliding_keys_read_each_other sv_slashes "p/lop" "plop" payload0
           (Number.of_Z (T0 + 1)) world0
           (snd (Service.set sv_slashes "p/lop" payload0 (Some (Number.of_Z (T0 + 1))) world0))).
  - vm_compute. reflexivity.
  - vm_compute. reflexivity.
  - vm_compute. reflexivity.
  - apply by_set. vm_compute. reflexivity.
  - reflexivity.
  - vm_compute. reflexivity.
Defined.

(** ** An eol that is falsy *)

Lemma last_callback_app (tr l : list event) (r : error + cb_data) (w : world) :
  trace w = tr ++ l -> last (callbacks l) = Some r -> last_callback w = Some r.
Proof.
  intros H Hl. unfold last_callback. rewrite H, callbacks_app, last_app, Hl.
  reflexivity.
Qed.

(** X15. An eol that is falsy and passes the check is stored as 0.  When
    the eol is [NaN], or is left out in the callback implementation, (or is
    a zero at a clock that is not past 0,) [set] does not reject it; the
    bucket it publishes carries the eol 0, so that, once the clock is past
    0, no reader serves it: [get] and [getStream] fail with
    [E_END_OF_LIFE] of 0. *)
Theorem falsy_eol_is_born_expired (sv : services) (key : string) (data : bytes)
    (e : option number) (w w2 : world) :
  eol_or_zero e = Number.zero ->
  lt_eol e (time sv (ticks w)) = false ->
  Service._keyToPath sv key +:+ ".tmp" ∉ readonly (w_disk w) ->
  w_disk w2 = w_disk (snd (Legacy.set sv key data e w)) ->
  Number.lt Number.zero (time sv (ticks w2)) = true ->
  let expired := YError.new "E_END_OF_LIFE" [VNum Number.zero] in
  last_callback (snd (Legacy.set sv key data e w)) = Some (inr CbNull) /\
  (forall n, e = Some n ->
     fst (Service.set sv key data e w) = inr tt /\
     w_disk (snd (Service.set sv key data e w)) = w_disk w2) /\
  fst (Service.get sv key w2) = inl expired /\
  fst (Service.getStream sv key w2) = inl expired /\
  last_callback (snd (Legacy.get sv key w2)) = Some (inl expired) /\
  last_callback (snd (Legacy.getStream sv key w2)) = Some (inl expired).
Proof.
  intros Hz Hlt Hro Hw Hnow expired.
  rewrite legacy_set_run in Hw |- * by exact Hlt.
  rewrite (open_w_allowed _ _ Hro) in Hw |- *. cbn [snd w_disk] in Hw.
  assert (Hf : files (w_disk w2) !! Service._keyToPath sv key =
               Some (bucket (Some {| eol := e |}) data))
    by (rewrite Hw; apply published_dest).
  assert (Hd : Number.is_double (eol_or_zero (eol_of (Some {| eol := e |}))) = true)
    by (cbn [eol_of eol]; rewrite Hz; reflexivity).
  split; [| split; [| repeat split]].
  - eapply last_callback_app; reflexivity.
  - intros n ->. cbn [lt_eol] in Hlt.
    rewrite service_set_run by exact Hlt.
    rewrite (open_w_allowed _ _ Hro). cbn [fst snd w_disk].
    split; [reflexivity | symmetry; exact Hw].
  - rewrite (service_get_bucket sv key _ data w2 Hd Hf). cbn [eol_of eol].
    rewrite Hz, Hnow. reflexivity.
  - destruct (service_getStream_bucket sv key _ data w2 Hd Hf) as (cs & _ & ->).
    cbn [eol_of eol]. rewrite Hz, Hnow. reflexivity.
  - rewrite (legacy_get_bucket sv key _ data w2 Hd Hf). cbn [eol_of eol].
    rewrite Hz, Hnow. eapply last_callback_app; reflexivity.
  - destruct (legacy_getStream_bucket sv key _ data w2 Hd Hf) as (cs & _ & ->).
    cbn [eol_of eol]. rewrite Hz, Hnow. eapply last_callback_app; reflexivity.
Qed.

Lemma falsy_eol_is_born_expired_witness :
  fst (Service.get sv0 "plop" (snd (Legacy.set sv0 "plop" payload0 None world0))) =
    inl (YError.new "E_END_OF_LIFE" [VNum Number.zero]).
Proof.
  destruct (falsy_eol_is_born_expired sv0 "plop" payload0 None world0
              (snd (Legacy.set sv0 "plop" payload0 None world0)))
    as (_ & _ & H & _).
  - reflexivity.
  - reflexivity.
  - vm_compute. discriminate.
  - reflexivity.
  - vm_compute. reflexivity.
  - exact H.
Defined.

(** ** The temporary file of the callback implementation *)

(** X16. [setStream] of the callback implementation creates its temporary
    file before it checks the eol.  Called with an eol before the clock, on
    a disk where the temporary file can be created, it calls back with
    [E_END_OF_LIFE] and leaves an empty temporary file behind, every other
    file being as it was; from then on, [setStream] of either
    implementation, with an eol that passes the check, fails on that key
    with [E_ACCESS] wrapping [EEXIST]. *)
Theorem legacy_setStream_leaves_temp (sv : services) (key : string) (cs : list bytes)
    (e : option number) (w : world) :
  Number.lt (eol_or_max e) (time sv (ticks w)) = true ->
  files (w_disk w) !! (Service._keyToPath sv key +:+ ".tmp") = None ->
  Service._keyToPath sv key +:+ ".tmp" ∉ readonly (w_disk w) ->
  let tmp := Service._keyToPath sv key +:+ ".tmp" in
  let w1 := snd (Legacy.setStream sv key cs e w) in
  let refused := YError.wrap (SysErr "EEXIST") "E_ACCESS" [VStr key] in
  last_callback w1 = Some (inl (YError.new "E_END_OF_LIFE" [VNum (eol_or_max e)])) /\
  files (w_disk w1) !! tmp = Some [] /\
  (forall p, p <> tmp -> files (w_disk w1) !! p = files (w_disk w) !! p) /\
  (forall (cs' : list bytes) (e' : number) (w2 : world),
     w_disk w2 = w_disk w1 ->
     Number.lt (eol_or_max (Some e')) (time sv (ticks w2)) = false ->
     fst (Service.setStream sv key cs' (Some e') w2) = inl refused /\
     last_callback (snd (Legacy.setStream sv key cs' (Some e') w2)) = Some (inl refused)).
Proof.
  intros Hlt Hf Hro tmp w1 refused. subst w1.
  rewrite legacy_setStream_run, Hlt. cbn [snd w_disk]. fold tmp.
  assert (Ho : NodeFs.open_for_write tmp "wx" (w_disk w) = None).
  { unfold NodeFs.open_for_write. fold tmp in Hf, Hro. rewrite Hf.
    destruct (decide (tmp ∈ readonly (w_disk w))); [contradiction |].
    destruct (decide (_ ∧ is_Some None)) as [[_ [x H]] | _]; [discriminate H | reflexivity]. }
  unfold NodeFs.createWriteStream. cbn [flags wx default]. unfold id. rewrite Ho.
  cbn [snd with_files files readonly].
  split; [eapply last_callback_app; reflexivity |].
  split; [apply lookup_insert_eq |].
  split; [intros p Hp; apply lookup_insert_ne; congruence |].
  intros cs' e' w2 Hw Hlt'.
  assert (Ho' : NodeFs.open_for_write tmp "wx" (w_disk w2) = Some (SysErr "EEXIST")).
  { unfold NodeFs.open_for_write. rewrite Hw. cbn [with_files files readonly].
    destruct (decide (tmp ∈ readonly (w_disk w))); [contradiction |].
    rewrite lookup_insert_eq.
    destruct (decide (_ ∧ _)) as [_ | Hn]; [reflexivity |].
    exfalso. apply Hn. split; [reflexivity | eauto]. }
  split.
  - rewrite service_setStream_run by exact Hlt'. fold tmp. rewrite Ho'. reflexivity.
  - rewrite legacy_setStream_run, Hlt'. fold tmp. rewrite Ho'.
    eapply last_callback_app; reflexivity.
Qed.

Lemma legacy_setStream_leaves_temp_witness :
  files (w_disk (snd (Legacy.setStream sv0 "plop" [payload0] (Some (Number.of_Z 1)) world0)))
    !! (plop_path +:+ ".tmp") = Some [].
Proof.
  destruct (legacy_setStream_leaves_temp sv0 "plop" [payload0] (Some (Number.of_Z 1)) world0)
    as (_ & H & _).
  - vm_compute. reflexivity.
  - vm_compute. reflexivity.
  - vm_compute. discriminate.
  - exact H.
Defined.

(** ** The callback *)

Lemma callbacks_snoc (tr l : list event) (rs : list (error + cb_data)) :
  callbacks l = rs -> callbacks (tr ++ l) = callbacks tr ++ rs.
Proof. intros <-. apply callbacks_app. Qed.

Ltac called_back_with := cbn [snd trace]; eexists; apply callbacks_snoc; reflexivity.

(** X17. How often the callback implementation calls back, where no
    stream is involved.  Whatever the arguments and the disk, [get] and
    [set] invoke the callback exactly once; [setEOL] does so too when it
    deletes or cannot open the file, and twice when it has opened the file:
    once with a success, as soon as [fs.write] is called, and once more
    with the outcome of the write. *)
Theorem legacy_calls_back (sv : services) (key : string) (data : bytes)
    (e : option number) (w : world) :
  calls_back [] (Legacy.get sv key) w /\
  calls_back [] (Legacy.set sv key data e) w /\
  calls_back
    (if Number.lt (eol_or_zero e) (time sv (ticks w)) then []
     else
       match files (w_disk w) !! Service._keyToPath sv key with
       | None => []
       | Some _ =>
           if decide (Service._keyToPath sv key ∈ readonly (w_disk w)) then []
           else [inr CbNull]
       end)
    (Legacy.setEOL sv key e) w.
Proof.
  unfold calls_back. split; [| split].
  - rewrite legacy_get_any. cbn [snd].
    destruct (files (w_disk w) !! _) as [b |]; [destruct (_decodeHeader b) |];
      called_back_with.
  - destruct (lt_eol e (time sv (ticks w))) eqn:Hlt.
    + destruct e as [e |]; [| discriminate Hlt].
      rewrite legacy_set_expired by exact Hlt.
      called_back_with.
    + rewrite legacy_set_run by exact Hlt. cbn [snd].
      destruct (NodeFs.open_for_write _ _ _);
        called_back_with.
  - destruct (Number.lt (eol_or_zero e) (time sv (ticks w))) eqn:Hlt.
    + rewrite legacy_setEOL_delete by exact Hlt. cbn [snd].
      destruct (files (w_disk w) !! _);
        called_back_with.
    + destruct (files (w_disk w) !! Service._keyToPath sv key) as [c |] eqn:Hf.
      * destruct (decide (Service._keyToPath sv key ∈ readonly (w_disk w))) as [Hro | Hro].
        -- rewrite (legacy_setEOL_denied sv key e w c Hlt Hf Hro).
           called_back_with.
        -- rewrite (legacy_setEOL_update sv key e w c Hlt Hf Hro). cbn [snd trace].
           destruct (_ =? _)%nat;
             called_back_with.
      * rewrite (legacy_setEOL_missing sv key e w Hlt Hf).
        called_back_with.
Qed.

(** ** Descriptors *)

(** X18. [setEOL] leaves no file descriptor open.  In both
    implementations it closes the descriptor it opened on every path: after
    a full write, after a short one (where the promise implementation
    closes it twice, in whatever order the two calls are served) and when
    the file cannot be opened there is none.  Run on a disk whose next
    descriptor is free, it leaves the table of open descriptors as it
    was. *)
Theorem setEOL_leaves_no_descriptor (sv : services) (key : string) (e : option number)
    (w : world) :
  fds (w_disk w) !! next_fd (w_disk w) = None ->
  fds (w_disk (snd (Service.setEOL sv key e w))) = fds (w_disk w) /\
  fds (w_disk (snd (Legacy.setEOL sv key e w))) = fds (w_disk w).
Proof.
  intros Hfree.
  assert (H : forall op, no_descriptor_left (w_disk w) (w_disk (snd (run_write sv op w)))).
  { intros op. apply (write_cases no_descriptor_left); unfold no_descriptor_left.
    - reflexivity.
    - reflexivity.
    - reflexivity.
    - intros hd d Hd. cbn [header_rewritten fds]. apply delete_insert_id. exact Hd.
    - intros o d _. unfold NodeFs.createWriteStream.
      destruct (NodeFs.open_for_write _ _ _); reflexivity. }
  split.
  - exact (H (SetEOLOp key e) Hfree).
  - exact (H (LegacySetEOLOp key e) Hfree).
Qed.

Lemma setEOL_leaves_no_descriptor_witness :
  fds (w_disk (snd (Service.setEOL sv0 "plop" (Some (Number.of_Z (T0 + 5))) world_race))) =
    fds (w_disk world_race).
Proof.
  destruct (setEOL_leaves_no_descriptor sv0 "plop" (Some (Number.of_Z (T0 + 5))) world_race)
    as [H _].
  - vm_compute. reflexivity.
  - exact H.
Defined.

(** ** The header, again *)

(** X19. [_decodeHeader] looks at the first [HEADER_SIZE] bytes only: two
    buffers that start with the same [HEADER_SIZE] bytes decode to the same
    header, or both fail, with errors of the same code. *)
Theorem decodeHeader_reads_the_window (b b' : bytes) :
  firstn HEADER_SIZE b = firstn HEADER_SIZE b' ->
  match _decodeHeader b, _decodeHeader b' with
  | inr hdr, inr hdr' => hdr = hdr'
  | inl err, inl err' => YError.code_of err = YError.code_of err'
  | _, _ => False
  end.
Proof.
  intros Hw.
  pose proof (decodeHeader_window b) as H. pose proof (decodeHeader_window b') as H'.
  rewrite <- Hw in H'.
  destruct (_decodeHeader b) as [e1 | h1], (_decodeHeader b') as [e2 | h2],
           (_decodeHeader (firstn HEADER_SIZE b)) as [e3 | h3];
    try contradiction; congruence.
Qed.

Lemma decodeHeader_reads_the_window_witness :
  _decodeHeader (bucket (Some {| eol := Some (Number.of_Z T0) |}) payload0) =
    inr {| eol := Some (Number.of_Z T0) |}.
Proof.
  pose proof (decodeHeader_reads_the_window
                (bucket (Some {| eol := Some (Number.of_Z T0) |}) payload0)
                (_encodeHeader (Some {| eol := Some (Number.of_Z T0) |}))) as H.
  assert (H2 : firstn HEADER_SIZE (bucket (Some {| eol := Some (Number.of_Z T0) |}) payload0) =
               firstn HEADER_SIZE (_encodeHeader (Some {| eol := Some (Number.of_Z T0) |})))
    by (vm_compute; reflexivity).
  specialize (H H2).
  change (_decodeHeader (_encodeHeader (Some {| eol := Some (Number.of_Z T0) |})))
    with (@inr error header {| eol := Some (Number.of_Z T0) |}) in H.
  destruct (_decodeHeader (bucket (Some {| eol := Some (Number.of_Z T0) |}) payload0))
    as [err | hdr]; [contradiction | rewrite H; reflexivity].
Defined.

(** X20. The bytes of a header carry [eol || 0] and nothing else: two
    header descriptions whose eol are numbers encode to the same bytes
    exactly when their [eol || 0] are the same number.  In particular no
    eol, [NaN] and the zeros all encode as 0. *)
Theorem encodeHeader_carries_eol_or_zero (h h' : option header) :
  Number.is_double (eol_or_zero (eol_of h)) = true ->
  Number.is_double (eol_or_zero (eol_of h')) = true ->
  _encodeHeader h = _encodeHeader h' <->
  eol_or_zero (eol_of h) = eol_or_zero (eol_of h').
Proof.
  intros Hd Hd'. split.
  - intros H. apply (f_equal _decodeHeader) in H.
    rewrite !decodeHeader_encodeHeader in H by assumption.
    congruence.
  - intros H. rewrite !encodeHeader_layout, H. reflexivity.
Qed.

Lemma encodeHeader_carries_eol_or_zero_witness :
  _encodeHeader (Some {| eol := Some S754_nan |}) = _encodeHeader None.
Proof.
  apply (encodeHeader_carries_eol_or_zero (Some {| eol := Some S754_nan |}) None).
  - vm_compute. reflexivity.
  - vm_compute. reflexivity.
  - vm_compute. reflexivity.
Defined.

(** ** The two implementations, on disk *)

(** X21. The two implementations do the same to the disk.  [set], given an
    eol, leaves the same disk in the callback implementation as in the
    promise implementation, whatever the eol, the data and the disk,
    rejections and failures included; so does [setEOL] for every eol that
    is not [NaN], on the path that deletes and on the path that rewrites
    the header. *)
Theorem implementations_agree_on_disk (sv : services) (key : string) (data : bytes)
    (e : number) (w : world) :
  w_disk (snd (Legacy.set sv key data (Some e) w)) =
    w_disk (snd (Service.set sv key data (Some e) w)) /\
  (Number.is_nan e = false ->
   w_disk (snd (Legacy.setEOL sv key (Some e) w)) =
     w_disk (snd (Service.setEOL sv key (Some e) w))).
Proof.
  split.
  - destruct (Number.lt e (time sv (ticks w))) eqn:Hlt.
    + rewrite legacy_set_expired, service_set_expired by exact Hlt. reflexivity.
    + rewrite legacy_set_run, service_set_run by exact Hlt.
      destruct (NodeFs.open_for_write _ _ _); reflexivity.
  - intros Hnan.
    assert (Hz : Number.lt (eol_or_zero (Some e)) (time sv (ticks w)) =
                 Number.lt e (time sv (ticks w)))
      by (apply NumberFacts.lt_or_zero; exact Hnan).
    destruct (Number.lt e (time sv (ticks w))) eqn:Hlt.
    + rewrite legacy_setEOL_delete by exact Hz.
      rewrite service_setEOL_delete by exact Hlt.
      destruct (files (w_disk w) !! _); reflexivity.
    + destruct (files (w_disk w) !! Service._keyToPath sv key) as [c |] eqn:Hf.
      * destruct (decide (Service._keyToPath sv key ∈ readonly (w_disk w))) as [Hro | Hro].
        -- rewrite (legacy_setEOL_denied sv key (Some e) w c Hz Hf Hro).
           rewrite (service_setEOL_denied sv key e w c Hlt Hf Hro). reflexivity.
        -- rewrite (legacy_setEOL_update sv key (Some e) w c Hz Hf Hro).
           rewrite (service_setEOL_update sv key e w c Hlt Hf Hro).
           cbn [snd w_disk]. rewrite encodeHeader_or_zero. reflexivity.
      * rewrite (legacy_setEOL_missing sv key (Some e) w Hz Hf).
        rewrite (service_setEOL_missing sv key e w Hlt Hf). reflexivity.
Qed.

(** ** Expiry *)

(** X22. A bucket that is past its end of life is refused by every reader,
    and stays on the disk.  For a bucket whose header carries an eol before
    the clock, [get] and [getStream] of both implementations fail with
    [E_END_OF_LIFE] of that eol, none of them hands over a byte of the
    payload, and the file is left where it is: reading never evicts. *)
Theorem expired_bucket_is_refused (sv : services) (key : string) (h : option header)
    (payload : bytes) (w : world) :
  Number.is_double (eol_or_zero (eol_of h)) = true ->
  files (w_disk w) !! Service._keyToPath sv key = Some (bucket h payload) ->
  Number.lt (eol_or_zero (eol_of h)) (time sv (ticks w)) = true ->
  let expired := YError.new "E_END_OF_LIFE" [VNum (eol_or_zero (eol_of h))] in
  Service.get sv key w =
    (inl expired,
     {| w_disk := w_disk w; ticks := S (ticks w);
        trace := trace w ++ [FsReadFile (Service._keyToPath sv key)] |}) /\
  Service.getStream sv key w =
    (inl expired,
     {| w_disk := w_disk w; ticks := S (ticks w);
        trace := trace w ++ [FsCreateReadStream (Service._keyToPath sv key)] |}) /\
  callbacks (trace (snd (Legacy.get sv key w))) = callbacks (trace w) ++ [inl expired] /\
  callbacks (trace (snd (Legacy.getStream sv key w))) =
    callbacks (trace w) ++ [inl expired] /\
  w_disk (snd (Legacy.get sv key w)) = w_disk w /\
  w_disk (snd (Legacy.getStream sv key w)) = w_disk w.
Proof.
  intros Hd Hf Hlt expired.
  rewrite (service_get_bucket sv key h payload w Hd Hf), Hlt.
  destruct (service_getStream_bucket sv key h payload w Hd Hf) as (cs & _ & ->).
  rewrite (legacy_get_bucket sv key h payload w Hd Hf), Hlt.
  destruct (legacy_getStream_bucket sv key h payload w Hd Hf) as (cs' & _ & ->).
  rewrite Hlt. cbn [snd trace w_disk]. rewrite !callbacks_app.
  repeat split; reflexivity.
Qed.

Lemma expired_bucket_is_refused_witness :
  fst (Service.getStream sv0 "plop" world_zero) =
    inl (YError.new "E_END_OF_LIFE" [VNum Number.zero]).
Proof.
  destruct (expired_bucket_is_refused sv0 "plop" (Some {| eol := Some Number.zero |})
              (concat [payload0]) world_zero) as (_ & H & _).
  - vm_compute. reflexivity.
  - vm_compute. reflexivity.
  - vm_compute. reflexivity.
  - rewrite H. reflexivity.
Defined.
